(** * QUIT: voxel-wise model fitting tools. Verification of selected routines.

    The development embeds, in order:
    - the Eigen dynamic arrays the tools pass around ([Source/Core], [Source/QI]);
    - [QI::EllipseToSignal] ([Source/SSFP/EllipseHelpers.h]);
    - [RamaniModel] ([Source/MT/qi_qmt.cpp]);
    - the cereal [save]/[load] pair for arrays ([Source/Core/EigenCereal.h]);
    - [QI::ReadArray] ([Source/QI/Util.h]);
    - [itk::PolynomialImage] and the driver of [qipolygen].

    C++ [double] is IEEE binary64 and is modelled by Rocq's primitive [float];
    a template parameter standing for a number type (plain [double], or the
    dual numbers of the automatic differentiation) is a type [T] with the
    operations of the class [Numeric]. *)

From Stdlib Require Import ZArith List Floats Ascii String Lia.
From stdpp Require Import base tactics option list vector gmap strings pretty.

Set Warnings "-inexact-float".

Set Default Proof Using "Type".
Local Open Scope Z_scope.
Local Open Scope nat_scope.

(** ** Eigen dynamic arrays *)

(** [Eigen::Array<T, Dynamic, 1>] is a list of coefficients; [rows] is its
    length. Freshly allocated storage holds an unspecified value [uninit] in
    every coefficient, and the theorems below hold whatever that value is. *)
Module Eigen.
Section Array.
Context {T : Type}.
Variable uninit : T.

Local Abbreviation ArrayX := (list T).

Definition rows (v : ArrayX) : nat := length v.

(** [ArrayX v(n)]: allocation without initialisation. *)
Definition alloc (n : nat) : ArrayX := replicate n uninit.

(** [v.resize(n, 1)]: nothing happens when the size is unchanged, otherwise
    the storage is reallocated and the old coefficients are lost. *)
Definition resize (n : nat) (v : ArrayX) : ArrayX :=
  if decide (rows v = n) then v else alloc n.

(** [v[i] = x], for [i] in range. *)
Definition set_coeff (i : nat) (x : T) (v : ArrayX) : ArrayX := <[i := x]> v.

(** The comma initialiser [dst << blk, ...] copies a block coefficient by
    coefficient, from position [pos] on. *)
Fixpoint comma_fill (dst : ArrayX) (pos : nat) (blk : ArrayX) : ArrayX :=
  match blk with
  | [] => dst
  | x :: blk' => comma_fill (set_coeff pos x dst) (S pos) blk'
  end.

Definition comma_init2 (dst blk1 blk2 : ArrayX) : ArrayX :=
  comma_fill (comma_fill dst 0 blk1) (rows blk1) blk2.

Lemma rows_alloc n : rows (alloc n) = n.
Proof. apply length_replicate. Qed.

Lemma rows_resize n v : rows (resize n v) = n.
Proof. unfold resize. case_decide; [done | apply rows_alloc]. Qed.

Lemma comma_fill_spec blk : ∀ pre old post,
  length old = length blk →
  comma_fill (pre ++ old ++ post) (length pre) blk = pre ++ blk ++ post.
Proof.
  induction blk as [|x blk IH]; intros pre old post Hlen.
  - destruct old; [done | discriminate].
  - destruct old as [|o old]; [discriminate|]. simpl in Hlen.
    cbn [comma_fill]. unfold set_coeff.
    rewrite insert_app_r_alt by lia. rewrite Nat.sub_diag. cbn [app].
    change (<[0:=x]> (o :: old ++ post)) with (x :: old ++ post).
    specialize (IH (pre ++ [x]) old post ltac:(lia)).
    rewrite length_app in IH. cbn [length] in IH.
    rewrite Nat.add_1_r in IH. rewrite <- !app_assoc in IH. exact IH.
Qed.

Lemma comma_init2_spec blk1 blk2 :
  comma_init2 (alloc (rows blk1 + rows blk2)) blk1 blk2 = blk1 ++ blk2.
Proof.
  unfold comma_init2, alloc. rewrite replicate_add.
  pose proof (comma_fill_spec blk1 [] (replicate (rows blk1) uninit)
                (replicate (rows blk2) uninit)) as H1.
  cbn [app length] in H1. rewrite H1 by apply length_replicate.
  pose proof (comma_fill_spec blk2 blk1 (replicate (rows blk2) uninit) []) as H2.
  rewrite !app_nil_r in H2. apply H2, length_replicate.
Qed.
End Array.
End Eigen.

(** ** Number types of the templates *)

(** What the templated signal functions ask of their scalar type [T]: the
  implicit conversion from [double], the four operations, and the
  elementary functions they call. *)
Class Numeric (T : Type) := {
  of_double : float → T;
  nadd : T → T → T;
  nsub : T → T → T;
  nmul : T → T → T;
  ndiv : T → T → T;
  ncos : T → T;
  nsin : T → T;
}.

Declare Scope num_scope.
Delimit Scope num_scope with num.
Infix "+" := nadd : num_scope.
Infix "-" := nsub : num_scope.
Infix "*" := nmul : num_scope.
Infix "/" := ndiv : num_scope.

(** ** SSFP ellipse: [QI::EllipseToSignal] *)

Module Ellipse.
Section EllipseToSignal.
Context {T : Type} `{Numeric T}.
Variable uninit : T.

Local Open Scope num_scope.

(** Coefficient-wise operations of [Eigen::Array], as the expression
    templates evaluate them. *)
Definition scalar_op (op : T → T → T) (s : T) (v : list T) : list T := map (op s) v.
Definition op_scalar (op : T → T → T) (v : list T) (s : T) : list T := map (λ x, op x s) v.
Definition array_op (op : T → T → T) (v w : list T) : list T := zip_with op v w.

Definition EllipseToSignal (G a b theta0 psi0 : T) (phi : list float) : list T :=
  let theta := map (λ p, theta0 - of_double p) phi in
  let psi := theta0 / of_double 2 + psi0 in
  let cos_th := map ncos theta in
  let sin_th := map nsin theta in
  let cos_psi := ncos psi in
  let sin_psi := nsin psi in
  let denom := scalar_op nsub (of_double 1) (scalar_op nmul b cos_th) in
  let re_m :=
    array_op ndiv
      (op_scalar nmul
         (scalar_op nsub cos_psi
            (scalar_op nmul a
               (array_op nsub (op_scalar nmul cos_th cos_psi)
                              (op_scalar nmul sin_th sin_psi))))
         G)
      denom in
  let im_m :=
    array_op ndiv
      (op_scalar nmul
         (scalar_op nsub sin_psi
            (scalar_op nmul a
               (array_op nadd (op_scalar nmul cos_th sin_psi)
                              (op_scalar nmul sin_th cos_psi))))
         G)
      denom in
  Eigen.comma_init2
    (Eigen.alloc uninit (Eigen.rows re_m + Eigen.rows im_m)) re_m im_m.

(** The magnetisation of the ellipse at one phase increment [p], as a
    complex number given by its two parts. *)
Definition ellipse_re (G a b theta0 psi0 : T) (p : float) : T :=
  let th := theta0 - of_double p in
  let psi := theta0 / of_double 2 + psi0 in
  (ncos psi - a * (ncos th * ncos psi - nsin th * nsin psi)) * G
  / (of_double 1 - b * ncos th).

Definition ellipse_im (G a b theta0 psi0 : T) (p : float) : T :=
  let th := theta0 - of_double p in
  let psi := theta0 / of_double 2 + psi0 in
  (nsin psi - a * (ncos th * nsin psi + nsin th * ncos psi)) * G
  / (of_double 1 - b * ncos th).

Lemma zip_with_map_same {A B C D} (f : B → C → D) (g : A → B) (h : A → C) (l : list A) :
  zip_with f (map g l) (map h l) = map (λ x, f (g x) (h x)) l.
Proof. induction l as [|x l IH]; [done|]. cbn. by rewrite IH. Qed.

Lemma EllipseToSignal_concat G a b theta0 psi0 phi :
  EllipseToSignal G a b theta0 psi0 phi =
  map (ellipse_re G a b theta0 psi0) phi ++ map (ellipse_im G a b theta0 psi0) phi.
Proof.
  unfold EllipseToSignal. cbv zeta. rewrite Eigen.comma_init2_spec.
  unfold scalar_op, op_scalar, array_op.
  rewrite !map_map, !zip_with_map_same. rewrite !map_map.
  rewrite !zip_with_map_same. reflexivity.
Qed.

(** C3. For a phase-increment array of length [n], [EllipseToSignal] returns
  an array of length [2 n]: its first [n] entries are the real parts and its
  last [n] entries the imaginary parts of the magnetisation at each
  increment, in order. *)
Theorem EllipseToSignal_layout (G a b theta0 psi0 : T) (phi : list float) :
  let s := EllipseToSignal G a b theta0 psi0 phi in
  let n := length phi in
  length s = (2 * n)%nat
  ∧ take n s = map (ellipse_re G a b theta0 psi0) phi
  ∧ drop n s = map (ellipse_im G a b theta0 psi0) phi.
Proof.
  cbv zeta. rewrite EllipseToSignal_concat.
  split; [|split].
  - rewrite length_app, !length_map. lia.
  - rewrite take_app_length'; [done | by rewrite length_map].
  - rewrite drop_app_length'; [done | by rewrite length_map].
Qed.

End EllipseToSignal.
End Ellipse.

(** ** Quantitative magnetisation transfer: [RamaniModel] *)

Module Ramani.

(** [QI::Lineshapes] and the fields of [QI::ZSpecSequence] that the model
    reads. *)
Inductive Lineshapes := Gaussian | Lorentzian | SuperLorentzian | Interpolated.

Record RFPulse := { p1 : float; p2 : float }.

Record ZSpecSequence := {
  sat_f0 : list float;
  sat_angle : list float;
  pulse : RFPulse;
  Trf : float;
  TR : float;
}.

(** The template arguments of [QI::Model<double, double, 5, 3, 1, 2>]. *)
Definition NV : nat := 5.
Definition NF : nat := 3.
Definition ND : nat := 2.

Abbreviation VaryingArray := (vec float NV).
Abbreviation FixedArray := (vec float NF).
Abbreviation DerivedArray := (vec float ND).

(** Conversion of a size to the 32-bit [int] a function returns. *)
Definition to_int (z : Z) : Z := ((z + 2 ^ 31) mod 2 ^ 32 - 2 ^ 31)%Z.

(** [M_PI] of [<cmath>]. *)
Definition M_PI : float := 0x1.921fb54442d18p+1%float.


(** [// #define QI_DEBUG_BUILD 1] is commented out at the top of the file. *)
Definition QI_DEBUG_BUILD : bool := false.

Section Model.
(** Declared in headers that are not at hand: the number of saturation
    offsets [ZSpecSequence::size()], and the interpolated lineshape. *)
Variable ZSpecSequence_size : ZSpecSequence → Z.
Variable InterpLineshape : Type.

Record RamaniModel := {
  sequence : ZSpecSequence;
  R1_b : float;
  lineshape : Lineshapes;
  interp : option InterpLineshape;   (* [nullptr] is [None] *)
}.

Definition varying_names : vec string NV := [# "M0_f"; "f_b"; "T2_b"; "T2_f"; "k"]%string.
Definition derived_names : vec string 2 := [# "T1_f"; "k_bf"]%string.
Definition fixed_names : vec string NF := [# "f0"; "B1"; "T1_app"]%string.

Definition fixed_defaults : FixedArray := [# 0.0; 1.0; 1.0]%float.
Definition bounds_lo : VaryingArray := [# 0.1; 1e-6; 0.1e-6; 0.01; 1]%float.
Definition bounds_hi : VaryingArray := [# 10; 0.99; 100e-6; 1; 100]%float.
Definition start : VaryingArray := [# 1; 0.1; 10e-6; 0.1; 10]%float.

(** [int input_size(const int) const { return sequence.size(); }] *)
Definition input_size (m : RamaniModel) (_ : Z) : Z :=
  to_int (ZSpecSequence_size (sequence m)).


(** *** The signal equation *)

Section Signal.
Context {T : Type} `{Numeric T}.

(** Declared in [Lineshape.h], which is not at hand: the lineshape functions
    take the offsets (an array of [double]) and [T2b], and give one value per
    offset. [libm_pow] is [pow] of [<cmath>] on [double]. *)
Variable QI_Gaussian QI_Lorentzian QI_SuperLorentzian : list float → T → list T.
Variable interp_call : InterpLineshape → list float → T → list T.
Variable libm_pow : float → float → float.

(** What a debug build prints: a label and the array. *)
Definition DebugLog := list (string * list T).

(** Modelled from the spec: the macro [QI_DBVEC(x)] of [Macro.h], which is
    not among the sources. A model is a pure function of its inputs, so the
    macro prints [x] only in a debug build and expands to nothing
    otherwise. *)
Definition QI_DBVEC (label : string) (x : list T) (cout : DebugLog) : DebugLog :=
  if QI_DEBUG_BUILD then cout ++ [(label, x)] else cout.

Local Open Scope num_scope.

(** [signal] as a method: it runs on the model object and on the output
    stream, and hands both back together with its result. The result is
    [None] when the lineshape is [Interpolated] and [interp] is null.
    Coefficient-wise operations pair the entries of arrays of one length,
    the number of saturation offsets. *)
Definition signal (m : RamaniModel) (v : vec T NV) (f : FixedArray)
    (cout : DebugLog) : option (list T) * RamaniModel * DebugLog :=
  let M0_f := v !!! 0%fin in
  let f_b := v !!! 1%fin in
  let T2b := v !!! 2%fin in
  let T2_f := v !!! 3%fin in
  let k := v !!! 4%fin in
  let f0 := f !!! 0%fin in
  let B1 := f !!! 1%fin in
  let T1_obs := f !!! 2%fin in
  let seq := sequence m in
  let offsets := map (λ x, x + f0)%float (sat_f0 seq) in
  let lsv :=
    match lineshape m with
    | Gaussian => Some (QI_Gaussian offsets T2b)
    | Lorentzian => Some (QI_Lorentzian offsets T2b)
    | SuperLorentzian => Some (QI_SuperLorentzian offsets T2b)
    | Interpolated =>
        match interp m with
        | Some ip => Some (interp_call ip offsets T2b)
        | None => None
        end
    end in
  match lsv with
  | None => (None, m, cout)
  | Some lsv =>
    let w_cwpe :=
      map (λ a, (B1 * a / p1 (pulse seq)) * sqrt (p2 (pulse seq) / (Trf seq * TR seq)))%float
          (sat_angle seq) in
    let R_rfb :=
      zip_with (λ w l, of_double (M_PI * (w * w))%float * l) w_cwpe lsv in
    let F := f_b / (of_double 1 - f_b) in
    let k_bf := k * F in
    let R1_obs := (1 / T1_obs)%float in
    let R1_f :=
      of_double R1_obs
      - (k_bf * of_double (R1_b m - R1_obs)%float) / (of_double (R1_b m - R1_obs)%float + k) in
    let numer :=
      map (λ r, M0_f * (of_double (R1_b m) * k_bf / R1_f + r + of_double (R1_b m) + k)) R_rfb in
    let ratio :=
      zip_with (λ w s, libm_pow (w / (2 * M_PI * s)) 2.0 * 1)%float w_cwpe (sat_f0 seq) in
    let denom :=
      zip_with
        (λ r q, k_bf / R1_f * (of_double (R1_b m) + r)
                + (of_double 1.0 + of_double q / (R1_f * T2_f))
                  * (r + of_double (R1_b m) + k))
        R_rfb ratio in
    let S := zip_with ndiv numer denom in
    let cout := QI_DBVEC "v" (vec_to_list v) cout in
    let cout := QI_DBVEC "w_cwpe" (map of_double w_cwpe) cout in
    let cout := QI_DBVEC "R_rfb" R_rfb cout in
    let cout := QI_DBVEC "S" S cout in
    (Some S, m, cout)
  end.

(** X19. When every lineshape function gives one value per offset and the
    sequence has as many saturation angles as offsets, the array [signal]
    returns has one entry per saturation offset. *)
Theorem signal_length (m : RamaniModel) (v : vec T NV) (f : FixedArray)
    (cout : DebugLog) (S : list T) :
  (∀ offs t, length (QI_Gaussian offs t) = length offs) →
  (∀ offs t, length (QI_Lorentzian offs t) = length offs) →
  (∀ offs t, length (QI_SuperLorentzian offs t) = length offs) →
  (∀ ip offs t, length (interp_call ip offs t) = length offs) →
  length (sat_angle (sequence m)) = length (sat_f0 (sequence m)) →
  (signal m v f cout).1.1 = Some S →
  length S = length (sat_f0 (sequence m)).
Proof.
  intros Hg Hl Hs Hi Hangle. unfold signal. cbv zeta.
  assert (Hany : ∀ lsv : list T,
    length lsv = length (sat_f0 (sequence m)) →
    ∀ (numer : T → T) (den : T → float → T) (ratio : float → float → float)
      (w : float → float) (r : float → T → T),
      length (zip_with ndiv
                (map numer (zip_with r (map w (sat_angle (sequence m))) lsv))
                (zip_with den (zip_with r (map w (sat_angle (sequence m))) lsv)
                   (zip_with ratio (map w (sat_angle (sequence m)))
                      (sat_f0 (sequence m)))))
      = length (sat_f0 (sequence m))).
  { intros lsv Hlsv numer den ratio w r.
    rewrite !length_zip_with, !length_map, !length_zip_with, !length_map.
    rewrite Hlsv, Hangle. lia. }
  destruct (lineshape m); [| | |destruct (interp m) as [ip|]]; cbn [fst snd];
    try discriminate; intros HS; simplify_eq; apply Hany;
    rewrite ?Hg, ?Hl, ?Hs, ?Hi; apply length_map.
Qed.

End Signal.

(** *** Properties *)



(** C4. The declared bounds and starting values satisfy
    [bounds_lo[i] <= start[i] <= bounds_hi[i]] at each of the five indices,
    and the three arrays (and the list of names) have [NV = 5] entries. *)
Theorem bounds_invariant :
  NV = 5
  ∧ length (vec_to_list bounds_lo) = NV
  ∧ length (vec_to_list bounds_hi) = NV
  ∧ length (vec_to_list start) = NV
  ∧ length (vec_to_list varying_names) = NV
  ∧ ∀ i : fin NV,
      (bounds_lo !!! i <=? start !!! i)%float = true
      ∧ (start !!! i <=? bounds_hi !!! i)%float = true.
Proof.
  repeat split; try reflexivity.
  all: revert i; unfold NV; intros i.
  all: repeat (inv_fin i; [vm_compute; reflexivity | intros i]).
  all: inv_fin i.
Qed.


Lemma to_int_small (z : Z) : (- 2 ^ 31 ≤ z < 2 ^ 31)%Z → to_int z = z.
Proof.
  intros Hz. unfold to_int.
  rewrite Z.mod_small by lia. lia.
Qed.


(** X3. When the size of the sequence fits an [int], [input_size] is that size,
    whatever its argument. *)
Theorem input_size_in_range (m : RamaniModel) (n : Z) :
  (0 ≤ ZSpecSequence_size (sequence m) < 2 ^ 31)%Z →
  input_size m n = ZSpecSequence_size (sequence m).
Proof. intros Hsize. unfold input_size. apply to_int_small. lia. Qed.

End Model.

(** A sequence of three saturation offsets, its size being their number. *)
Definition three_offsets : ZSpecSequence :=
  {| sat_f0 := [1000; 2000; 5000]%float; sat_angle := [360; 360; 360]%float;
     pulse := {| p1 := 0.5; p2 := 0.25 |}; Trf := 0.015; TR := 0.05 |}.


Lemma input_size_in_range_witness :
  input_size (λ s, Z.of_nat (length (sat_f0 s))) unit
    {| sequence := three_offsets; R1_b := 2.5; lineshape := Gaussian; interp := None |}
    7%Z = 3%Z.
Proof.
  apply (input_size_in_range (λ s, Z.of_nat (length (sat_f0 s))) unit
           {| sequence := three_offsets; R1_b := 2.5; lineshape := Gaussian;
              interp := None |} 7%Z).
  cbn. lia.
Defined.


(** A number type that records the operations applied to it, as the
    templates may be instantiated with. *)
Inductive term :=
| Const (x : float)
| Add (a b : term)
| Sub (a b : term)
| Mul (a b : term)
| Div (a b : term)
| Cos (a : term)
| Sin (a : term).

Definition term_Numeric : Numeric term :=
  {| of_double := Const; nadd := Add; nsub := Sub; nmul := Mul; ndiv := Div;
     ncos := Cos; nsin := Sin |}.

(** A lineshape that gives one value per offset. *)
Definition flat_lineshape (offs : list float) (T2b : term) : list term :=
  map (λ x, Mul (Const x) T2b) offs.

Lemma signal_length_witness :
  ∃ S, (@signal unit term term_Numeric flat_lineshape flat_lineshape flat_lineshape
          (λ _, flat_lineshape) (λ x _, x * x)%float
          {| sequence := three_offsets; R1_b := 2.5; lineshape := Gaussian;
             interp := None |}
          [# Const 1; Const 0.1; Const 10e-6; Const 0.1; Const 10]
          [# 0; 1; 1]%float []).1.1 = Some S
       ∧ length S = 3.
Proof.
  eexists. split; [reflexivity|].
  apply (@signal_length unit term term_Numeric flat_lineshape flat_lineshape
           flat_lineshape (λ _, flat_lineshape) (λ x _, x * x)%float
           {| sequence := three_offsets; R1_b := 2.5; lineshape := Gaussian;
              interp := None |}
           [# Const 1; Const 0.1; Const 10e-6; Const 0.1; Const 10]
           [# 0; 1; 1]%float []);
    try (intros; apply length_map); reflexivity.
Defined.

End Ramani.

(** ** Serialisation of arrays: [Eigen::save] and [Eigen::load] *)

Module EigenCereal.
Section Archive.
Context {T : Type}.
Variable uninit : T.

(** A text archive is the sequence of nodes written to it, or still to be
    read from it: size tags and values. A value is read back as it was
    written. *)
Inductive node := SizeTag (n : nat) | Value (x : T).

Local Abbreviation Archive := (list node).

(** Output archive: [ar(cereal::make_size_tag(n))] and [ar(x)]. *)
Definition put_size (n : nat) (ar : Archive) : Archive := ar ++ [SizeTag n].
Definition put_value (x : T) (ar : Archive) : Archive := ar ++ [Value x].

(** Input archive: the same two calls read the next node, and throw when it
    is of the other kind or the archive is exhausted. *)
Definition get_size (ar : Archive) : option (nat * Archive) :=
  match ar with
  | SizeTag n :: ar' => Some (n, ar')
  | _ => None
  end.

Definition get_value (ar : Archive) : option (T * Archive) :=
  match ar with
  | Value x :: ar' => Some (x, ar')
  | _ => None
  end.

(** [v[i]] for reading. *)
Definition coeff (v : list T) (i : nat) : T := default uninit (v !! i).

(** [for (auto i = 0; i < v.rows(); ++i) ar(v[i]);] with [count] iterations
    left. Sizes and loop counters are natural numbers: the arrays stay below
    the 2^31 rows at which the [int] counter would overflow. *)
Fixpoint save_loop (count i : nat) (v : list T) (ar : Archive) : Archive :=
  match count with
  | 0 => ar
  | S count' => save_loop count' (S i) v (put_value (coeff v i) ar)
  end.

Definition save (ar : Archive) (v : list T) : Archive :=
  save_loop (Eigen.rows v) 0 v (put_size (Eigen.rows v) ar).

(** [for (auto i = 0; i < n_rows; i++) ar(v[i]);] *)
Fixpoint load_loop (count i : nat) (ar : Archive) (v : list T)
    : option (list T * Archive) :=
  match count with
  | 0 => Some (v, ar)
  | S count' =>
      match get_value ar with
      | Some (x, ar') => load_loop count' (S i) ar' (Eigen.set_coeff i x v)
      | None => None
      end
  end.

Definition load (ar : Archive) (v : list T) : option (list T * Archive) :=
  match get_size ar with
  | Some (n_rows, ar') =>
      let v := if decide (Eigen.rows v ≠ n_rows)
               then Eigen.resize uninit n_rows v else v in
      load_loop n_rows 0 ar' v
  | None => None
  end.

Lemma save_loop_app (suffix : list T) : ∀ (pre : list T) (ar : Archive),
  save_loop (length suffix) (length pre) (pre ++ suffix) ar = ar ++ map Value suffix.
Proof.
  induction suffix as [|x suffix IH]; intros pre ar; cbn [save_loop length map].
  - by rewrite app_nil_r.
  - unfold coeff. rewrite list_lookup_middle by done.
    change (default uninit (Some x)) with x.
    specialize (IH (pre ++ [x]) (put_value x ar)).
    rewrite length_app, Nat.add_1_r, <- app_assoc in IH. cbn [app] in IH.
    rewrite IH. unfold put_value. by rewrite <- app_assoc.
Qed.

Lemma save_eq (ar : Archive) (v : list T) :
  save ar v = ar ++ SizeTag (length v) :: map Value v.
Proof.
  unfold save, Eigen.rows.
  pose proof (save_loop_app v [] (put_size (length v) ar)) as Hloop.
  cbn [length app] in Hloop. rewrite Hloop.
  unfold put_size. by rewrite <- app_assoc.
Qed.

Lemma load_loop_app (vals : list T) : ∀ (pre old : list T) (rest : Archive),
  length old = length vals →
  load_loop (length vals) (length pre) (map Value vals ++ rest) (pre ++ old)
  = Some (pre ++ vals, rest).
Proof.
  induction vals as [|x vals IH]; intros pre old rest Hlen.
  - destruct old; [|discriminate]. done.
  - destruct old as [|o old]; [discriminate|].
    cbn [load_loop length map app get_value]. unfold Eigen.set_coeff.
    rewrite insert_app_r_alt by lia. rewrite Nat.sub_diag.
    change (<[0:=x]> (o :: old)) with (x :: old).
    specialize (IH (pre ++ [x]) old rest ltac:(simpl in Hlen; lia)).
    rewrite length_app, Nat.add_1_r, <- !app_assoc in IH. exact IH.
Qed.

(** C9. Saving an array and loading the archive back gives the array again,
    with the same number of rows and the same entries, whatever the
    destination held and whatever its length was (it is resized when its
    length differs); what follows the array in the archive is left to be
    read. *)
Theorem load_save_roundtrip (v dest : list T) (rest : list node) :
  load (save [] v ++ rest) dest = Some (v, rest).
Proof.
  rewrite save_eq. cbn [app]. unfold load. cbn [get_size]. cbv zeta.
  set (d := if decide _ then _ else _).
  assert (Hd : length d = length v).
  { subst d. case_decide as Hne.
    - apply Eigen.rows_resize.
    - unfold Eigen.rows in Hne. destruct (decide (length dest = length v)); [done|].
      by destruct Hne. }
  exact (load_loop_app v [] d rest Hd).
Qed.

(** *** Further properties of the archive format *)

(** [serialize] for the arrays of fixed size 2 and 3, on an output archive:
    the size tag, then the coefficients. *)
Definition serialize_fixed {n : nat} (ar : list node) (v : vec T n) : list node :=
  let n_elements := n in
  save_loop n_elements 0 (vec_to_list v) (put_size n_elements ar).

Definition serialize2 (ar : list node) (v : vec T 2) : list node := serialize_fixed ar v.
Definition serialize3 (ar : list node) (v : vec T 3) : list node := serialize_fixed ar v.

Lemma load_size_values (v dest : list T) (rest : list node) :
  load (SizeTag (length v) :: map Value v ++ rest) dest = Some (v, rest).
Proof.
  unfold load. cbn [get_size]. cbv zeta.
  set (d := if decide _ then _ else _).
  assert (Hd : length d = length v).
  { subst d. case_decide as Hne.
    - apply Eigen.rows_resize.
    - unfold Eigen.rows in Hne. destruct (decide (length dest = length v)); [done|].
      by destruct Hne. }
  exact (load_loop_app v [] d rest Hd).
Qed.

Lemma load_loop_inv (count : nat) : ∀ (i : nat) (ar : list node) (d v : list T) (rest : list node),
  load_loop count i ar d = Some (v, rest) →
  i + count ≤ length d →
  ∃ vals, length vals = count ∧ ar = map Value vals ++ rest
          ∧ v = take i d ++ vals ++ drop (i + count) d.
Proof.
  induction count as [|count IH]; intros i ar d v rest Hload Hlen.
  - cbn in Hload. simplify_eq. exists []. split; [done|]. split; [done|].
    cbn [app]. by rewrite Nat.add_0_r, take_drop.
  - cbn [load_loop] in Hload.
    destruct ar as [|[n|x] ar]; cbn [get_value] in Hload; try discriminate.
    apply IH in Hload as (vals & Hvals & -> & ->);
      [|unfold Eigen.set_coeff; rewrite length_insert; lia].
    exists (x :: vals). split; [cbn; lia|]. split; [done|].
    unfold Eigen.set_coeff.
    rewrite (take_S_r _ _ x) by (apply list_lookup_insert_eq; lia).
    rewrite take_insert_ge by lia. rewrite drop_insert_lt by lia.
    rewrite <- app_assoc. cbn [app].
    by replace (i + S count) with (S i + count) by lia.
Qed.

Lemma load_Some_inv (ar : list node) (dest v : list T) (rest : list node) :
  load ar dest = Some (v, rest) →
  ar = SizeTag (length v) :: map Value v ++ rest.
Proof.
  unfold load. destruct ar as [|[n|x] ar]; cbn [get_size]; try discriminate.
  cbv zeta. set (d := if decide _ then _ else _).
  assert (Hd : length d = n).
  { subst d. case_decide as Hne.
    - apply Eigen.rows_resize.
    - unfold Eigen.rows in Hne. destruct (decide (length dest = n)); [done|].
      by destruct Hne. }
  intros Hload. apply load_loop_inv in Hload as (vals & Hvals & -> & ->); [|lia].
  rewrite take_0, drop_ge by lia. cbn [app]. rewrite app_nil_r.
  by rewrite Hvals.
Qed.

(** X4. [load] accepts only what [save] writes: when it returns an array
    and leaves the rest of the archive, the archive is the one [save] writes
    for that array, followed by that rest. *)
Theorem load_inverts_save (ar : list node) (dest v : list T) (rest : list node) :
  load ar dest = Some (v, rest) → ar = save [] v ++ rest.
Proof.
  intros Hload. apply load_Some_inv in Hload. rewrite save_eq.
  cbn [app]. exact Hload.
Qed.

(** X5. Arrays saved one after the other into one archive are loaded back in
    the same order: the first [load] returns the first array and leaves the
    archive at the second. *)
Theorem save_load_sequence (v w d1 d2 : list T) :
  (load (save (save [] v) w) d1 ≫= λ '(v', ar),
   load ar d2 ≫= λ '(w', ar'), Some (v', w', ar'))
  = Some (v, w, []).
Proof.
  rewrite (save_eq (save [] v) w), (save_eq [] v). cbn [app].
  rewrite load_size_values. cbn [mbind option_bind].
  pose proof (load_size_values w d2 []) as Hw. rewrite app_nil_r in Hw.
  by rewrite Hw.
Qed.

(** X7. An array of fixed size 2 or 3 written by [serialize] has the format
    of [save], so [load] reads it into a dynamic array with the same
    coefficients. *)
Theorem load_serialize_fixed (v2 : vec T 2) (v3 : vec T 3) (dest : list T)
    (rest : list node) :
  serialize2 [] v2 = save [] (vec_to_list v2)
  ∧ serialize3 [] v3 = save [] (vec_to_list v3)
  ∧ load (serialize2 [] v2 ++ rest) dest = Some (vec_to_list v2, rest)
  ∧ load (serialize3 [] v3 ++ rest) dest = Some (vec_to_list v3, rest).
Proof.
  assert (H2 : serialize2 [] v2 = save [] (vec_to_list v2)).
  { unfold serialize2, serialize_fixed, save, Eigen.rows.
    by rewrite length_vec_to_list. }
  assert (H3 : serialize3 [] v3 = save [] (vec_to_list v3)).
  { unfold serialize3, serialize_fixed, save, Eigen.rows.
    by rewrite length_vec_to_list. }
  rewrite H2, H3, !save_eq. cbn [app].
  split; [done|]. split; [done|]. split; apply load_size_values.
Qed.

End Archive.

Lemma load_inverts_save_witness :
  load 0%Z [SizeTag 2; Value 7%Z; Value 8%Z; SizeTag 0] [] = Some ([7; 8]%Z, [SizeTag 0])
  ∧ [SizeTag 2; Value 7%Z; Value 8%Z; SizeTag 0] = save 0%Z [] [7; 8]%Z ++ [SizeTag 0].
Proof.
  split; [reflexivity|].
  exact (load_inverts_save 0%Z [SizeTag 2; Value 7%Z; Value 8%Z; SizeTag 0] []
           [7; 8]%Z [SizeTag 0] eq_refl).
Defined.

End EigenCereal.

(** ** Reading arrays from text: [QI::ReadArray] *)

Module Util.

(** What a call may end in: a value, or an exception thrown by
    [QI_EXCEPTION]. *)
Inductive result (A : Type) :=
| Ok (a : A)
| Thrown (what : string).
Arguments Ok {A} a.
Arguments Thrown {A} what.

Section ReadArray.
Context {Scalar : Type}.
Variable uninit : Scalar.

(** [stream >> temp], on the characters of the stream that are still unread:
    the value and the characters left after it, or [None] when the extraction
    fails and the stream goes into its failed state. *)
Variable extract : string → option (Scalar * string).

(** [while (stream >> temp) vals.push_back(temp);] *)
Fixpoint read_loop (fuel : nat) (stream : string) (vals : list Scalar) : list Scalar :=
  match fuel with
  | 0 => vals
  | S fuel' =>
      match extract stream with
      | Some (temp, stream') => read_loop fuel' stream' (vals ++ [temp])
      | None => vals
      end
  end.

(** [for (int i = 0; i < vals.size(); i++) array[i] = vals[i];] *)
Fixpoint copy_loop (count i : nat) (vals array : list Scalar) : list Scalar :=
  match count with
  | 0 => array
  | S count' =>
      copy_loop count' (S i) vals (Eigen.set_coeff i (default uninit (vals !! i)) array)
  end.

(** [ReadArray(const std::string &s, Array &array)]: the result is the new
    value of [array]. No statement of the function throws. *)
Definition ReadArray (s : string) : list Scalar :=
  let vals := read_loop (S (String.length s)) s [] in
  copy_loop (length vals) 0 vals (Eigen.alloc uninit (length vals)).

(** [ReadArray(std::istream &in, Array &array)] on the unread characters of
    [in]. [getline] fails at the end of the input. *)
Fixpoint getline_from (s : string) : string * string :=
  match s with
  | EmptyString => (EmptyString, EmptyString)
  | String c s' =>
      if Ascii.eqb c "010" then (EmptyString, s')
      else let '(line, rest) := getline_from s' in (String c line, rest)
  end.

Definition getline (s : string) : option (string * string) :=
  match s with
  | EmptyString => None
  | _ => Some (getline_from s)
  end.

Definition peek (s : string) : option ascii :=
  match s with
  | EmptyString => None
  | String c _ => Some c
  end.

(** [while (in.peek() == '#') if (!std::getline(in, line)) QI_EXCEPTION(...)] *)
Fixpoint skip_comments (fuel : nat) (s : string) : result string :=
  match fuel with
  | 0 => Ok s
  | S fuel' =>
      match peek s with
      | Some "#"%char =>
          match getline s with
          | Some (_, rest) => skip_comments fuel' rest
          | None => Thrown "Failed to read input."
          end
      | _ => Ok s
      end
  end.

Definition ReadArray_stream (s : string) : result (list Scalar * string) :=
  match skip_comments (String.length s) s with
  | Thrown what => Thrown what
  | Ok s =>
      match getline s with
      | None => Thrown "Failed to read input."
      | Some (line, rest) => Ok (ReadArray line, rest)
      end
  end.

(** The values of the successive extractions from a stream, up to the first
    one that fails. *)
Inductive Extracts : string → list Scalar → Prop :=
| Extracts_stop s : extract s = None → Extracts s []
| Extracts_step s x s' xs :
    extract s = Some (x, s') → Extracts s' xs → Extracts s (x :: xs).

(** A successful extraction reads at least one character. *)
Definition consumes : Prop :=
  ∀ s x s', extract s = Some (x, s') → String.length s' < String.length s.

Lemma getline_from_length (s : string) :
  String.length (getline_from s).2 ≤ String.length s.
Proof.
  induction s as [|c s IH]; cbn [getline_from]; [done|].
  destruct (Ascii.eqb c "010"); cbn [snd String.length]; [lia|].
  destruct (getline_from s) as [line rest]. cbn [snd] in *. lia.
Qed.

(** The fuel given to [skip_comments] is enough: the loop ends because the
    next character is not [#], and it never throws. *)
Lemma skip_comments_ends (fuel : nat) : ∀ s,
  String.length s ≤ fuel →
  ∃ s', skip_comments fuel s = Ok s' ∧ peek s' ≠ Some "#"%char.
Proof.
  induction fuel as [|fuel IH]; intros s Hlen.
  - destruct s; [|cbn in Hlen; lia]. by exists EmptyString.
  - cbn [skip_comments]. destruct s as [|c s]; [by exists EmptyString|].
    cbn [peek]. destruct (Ascii.ascii_dec c "#"%char) as [->|Hc].
    + cbn [getline]. pose proof (getline_from_length (String "#" s)) as Hg.
      destruct (getline_from (String "#" s)) as [line rest] eqn:Eg.
      cbn [snd] in Hg. apply IH.
      cbn [getline_from] in Eg. cbn in Eg.
      pose proof (getline_from_length s) as Hs.
      destruct (getline_from s) as [line' rest']. cbn [snd] in Hs.
      simplify_eq. cbn [String.length] in Hlen. lia.
    + exists (String c s). split; [|cbn; congruence].
      revert Hc. repeat (destruct c as [[] [] [] [] [] [] [] []]; try done).
Qed.

Lemma copy_loop_app (suffix : list Scalar) : ∀ pre old,
  length old = length suffix →
  copy_loop (length suffix) (length pre) (pre ++ suffix) (pre ++ old) = pre ++ suffix.
Proof.
  induction suffix as [|x suffix IH]; intros pre old Hlen.
  - destruct old; [done | discriminate].
  - destruct old as [|o old]; [discriminate|].
    cbn [copy_loop length]. rewrite list_lookup_middle by done.
    change (default uninit (Some x)) with x. unfold Eigen.set_coeff.
    rewrite insert_app_r_alt by lia. rewrite Nat.sub_diag.
    change (<[0:=x]> (o :: old)) with (x :: old).
    specialize (IH (pre ++ [x]) old ltac:(simpl in Hlen; lia)).
    rewrite length_app, Nat.add_1_r, <- !app_assoc in IH. exact IH.
Qed.

Lemma ReadArray_vals (s : string) :
  ReadArray s = read_loop (S (String.length s)) s [].
Proof.
  unfold ReadArray. cbv zeta. set (vals := read_loop _ _ _).
  exact (copy_loop_app vals [] (Eigen.alloc uninit (length vals))
           (Eigen.rows_alloc uninit (length vals))).
Qed.

Lemma read_loop_Extracts (Hc : consumes) (fuel : nat) : ∀ s vals,
  String.length s < fuel →
  ∃ xs, Extracts s xs ∧ read_loop fuel s vals = vals ++ xs.
Proof.
  induction fuel as [|fuel IH]; intros s vals Hlt; [lia|].
  cbn [read_loop]. destruct (extract s) as [[x s']|] eqn:E.
  - destruct (IH s' (vals ++ [x])) as (xs & Hxs & Heq).
    { apply Hc in E. lia. }
    exists (x :: xs). split; [by eapply Extracts_step|].
    rewrite Heq. by rewrite <- app_assoc.
  - exists []. split; [by apply Extracts_stop | by rewrite app_nil_r].
Qed.

Lemma Extracts_fun s xs ys : Extracts s xs → Extracts s ys → xs = ys.
Proof.
  intros Hx. revert ys. induction Hx as [s E|s x s' xs E _ IH]; intros ys Hy.
  - inversion Hy; congruence.
  - inversion Hy as [|? y ? ys' E']; subst; [congruence|].
    rewrite E in E'. simplify_eq. f_equal. by apply IH.
Qed.

(** C10 (amended statement). When an extraction that succeeds reads at least one
    character, [ReadArray] always returns, and the array holds, in order, the
    values of the successive extractions from the start of the string up to
    the first one that fails, and nothing else; so a string whose first
    extraction fails, the empty string among them, gives an array of length
    zero. *)
Theorem ReadArray_extractions (Hc : consumes) (s : string) :
  Extracts s (ReadArray s)
  ∧ (∀ xs, Extracts s xs → ReadArray s = xs)
  ∧ (extract s = None → length (ReadArray s) = 0)
  ∧ length (ReadArray EmptyString) = 0.
Proof.
  assert (HE : ∀ s, Extracts s (ReadArray s)).
  { intros s0. rewrite ReadArray_vals.
    destruct (read_loop_Extracts Hc (S (String.length s0)) s0 []) as (xs & Hxs & Heq); [lia|].
    by rewrite Heq. }
  assert (HN : ∀ s, extract s = None → length (ReadArray s) = 0).
  { intros s0 E. by rewrite (Extracts_fun _ _ _ (HE s0) (Extracts_stop _ E)). }
  repeat split.
  - apply HE.
  - intros xs Hxs. eapply Extracts_fun; [apply HE | done].
  - apply HN.
  - apply HN. destruct (extract EmptyString) as [[x s']|] eqn:E; [|done].
    apply Hc in E. simpl in E. lia.
Qed.

(** *** Reading one value, and reading line by line *)

(** [Read(const std::string &s, T &val)]: the value it leaves in [val] when it
    returns [true], or the exception it throws. *)
Definition Read (s : string) : result Scalar :=
  match extract s with
  | Some (val, _) => Ok val
  | None => Thrown ("Failed to parse input: " +:+ s)
  end.

(** A string that holds no newline character. *)
Fixpoint no_newline (s : string) : bool :=
  match s with
  | EmptyString => true
  | String c s' => negb (Ascii.eqb c "010") && no_newline s'
  end.

Lemma read_loop_acc (fuel : nat) : ∀ s vals,
  read_loop fuel s vals = vals ++ read_loop fuel s [].
Proof.
  induction fuel as [|fuel IH]; intros s vals; cbn [read_loop].
  - by rewrite app_nil_r.
  - destruct (extract s) as [[x s']|]; [|by rewrite app_nil_r].
    rewrite (IH s' (vals ++ [x])), (IH s' ([] ++ [x])). by rewrite <- app_assoc.
Qed.

Lemma Extracts_length (Hc : consumes) (s : string) (xs : list Scalar) :
  Extracts s xs → length xs ≤ String.length s.
Proof.
  induction 1 as [s E|s x s' xs E _ IH]; cbn [length]; [lia|].
  apply Hc in E. lia.
Qed.

Lemma append_cons (c : ascii) (s t : string) :
  String c s +:+ t = String c (s +:+ t).
Proof. reflexivity. Qed.

Lemma append_nil (t : string) : EmptyString +:+ t = t.
Proof. reflexivity. Qed.

Lemma getline_from_line (line rest : string) :
  no_newline line = true →
  getline_from (line +:+ String "010" rest) = (line, rest).
Proof.
  induction line as [|c line IH]; cbn [no_newline].
  - intros _. rewrite append_nil. cbn [getline_from]. done.
  - intros [Hc Hline]%andb_true_iff. apply negb_true_iff in Hc.
    rewrite append_cons. cbn [getline_from]. by rewrite Hc, (IH Hline).
Qed.

Lemma getline_from_last (line : string) :
  no_newline line = true → getline_from line = (line, EmptyString).
Proof.
  induction line as [|c line IH]; cbn [no_newline getline_from]; [done|].
  intros [Hc Hline]%andb_true_iff. apply negb_true_iff in Hc.
  by rewrite Hc, (IH Hline).
Qed.

Lemma length_append (s1 s2 : string) :
  String.length (s1 +:+ s2) = String.length s1 + String.length s2.
Proof.
  induction s1 as [|c s1 IH]; [done|].
  rewrite append_cons. cbn [String.length]. by rewrite IH.
Qed.

Lemma skip_comments_fuel (f1 : nat) : ∀ (f2 : nat) (s : string),
  String.length s ≤ f1 → String.length s ≤ f2 →
  skip_comments f1 s = skip_comments f2 s.
Proof.
  induction f1 as [|f1 IH]; intros f2 s H1 H2.
  - destruct s; [|cbn in H1; lia]. by destruct f2.
  - destruct f2 as [|f2]; [destruct s; [done | cbn in H2; lia]|].
    cbn [skip_comments]. destruct (peek s) as [c|] eqn:Ep; [|done].
    destruct s as [|c' s]; [done|]. cbn [getline].
    pose proof (getline_from_length (String c' s)) as Hg.
    cbn [getline_from] in *.
    destruct (Ascii.eqb c' "010").
    + cbn [snd String.length] in *.
      assert (Hrec : skip_comments f1 s = skip_comments f2 s) by (apply IH; lia).
      by rewrite Hrec.
    + pose proof (getline_from_length s) as Hs.
      destruct (getline_from s) as [line rest]. cbn [snd String.length] in *.
      assert (Hrec : skip_comments f1 rest = skip_comments f2 rest) by (apply IH; lia).
      by rewrite Hrec.
Qed.

Lemma skip_comments_other (fuel : nat) (s : string) :
  peek s ≠ Some "#"%char → skip_comments fuel s = Ok s.
Proof.
  intros Hp. destruct fuel as [|fuel]; [done|]. cbn [skip_comments].
  destruct s as [|c s]; [done|]. cbn [peek] in *.
  destruct (Ascii.ascii_dec c "#"%char) as [->|Hc]; [done|].
  revert Hc. clear. repeat (destruct c as [[] [] [] [] [] [] [] []]; try done).
Qed.

(** X8. [Read] and [ReadArray] agree on the first value of a string: when
    [Read] returns a value, it is the first entry of the array [ReadArray]
    gives; when [Read] throws, [ReadArray] throws nothing and gives the
    empty array. *)
Theorem Read_ReadArray (s : string) :
  match Read s with
  | Ok val => ∃ more, ReadArray s = val :: more
  | Thrown what =>
      ReadArray s = [] ∧ what = ("Failed to parse input: " +:+ s)
  end.
Proof.
  unfold Read. rewrite ReadArray_vals. cbn [read_loop].
  destruct (extract s) as [[x s']|]; [|done].
  rewrite read_loop_acc. cbn [app]. eauto.
Qed.

(** X9. A comment line, from its [#] to the end of the line, is skipped:
    [ReadArray] on a stream gives what it gives on the stream without that
    line. *)
Theorem ReadArray_stream_comment (comment s : string) :
  no_newline comment = true →
  ReadArray_stream (String "#" comment +:+ String "010" s) = ReadArray_stream s.
Proof.
  intros Hc. unfold ReadArray_stream.
  rewrite append_cons. cbn [String.length skip_comments peek getline].
  rewrite <- append_cons.
  rewrite getline_from_line by (cbn [no_newline]; by rewrite Hc).
  rewrite (skip_comments_fuel _ (String.length s) s); [done| |lia].
  rewrite length_append. cbn [String.length]. lia.
Qed.

(** X10. Successive calls read successive lines: on a stream that starts
    with a line that is not a comment, [ReadArray] returns the array of that
    line and leaves the stream after its newline; the last line needs no
    newline. *)
Theorem ReadArray_stream_line (line rest : string) :
  no_newline line = true → peek line ≠ Some "#"%char →
  ReadArray_stream (line +:+ String "010" rest) = Ok (ReadArray line, rest)
  ∧ (line ≠ EmptyString → ReadArray_stream line = Ok (ReadArray line, EmptyString)).
Proof.
  intros Hline Hpeek. unfold ReadArray_stream. split.
  - rewrite skip_comments_other by (by destruct line).
    assert (Hne : ∃ c t, line +:+ String "010" rest = String c t)
      by (destruct line; [rewrite append_nil | rewrite append_cons]; eauto).
    destruct Hne as (c & t & Hne). unfold getline. rewrite Hne, <- Hne.
    by rewrite getline_from_line.
  - intros Hne. rewrite skip_comments_other by done.
    destruct line as [|c t] eqn:El; [done|]. unfold getline. rewrite <- El.
    rewrite getline_from_last by (by subst). done.
Qed.

(** X11. When an extraction that succeeds reads at least one character, the
    array of [ReadArray] has at most as many entries as the string has
    characters. *)
Theorem ReadArray_length (Hc : consumes) (s : string) :
  length (ReadArray s) ≤ String.length s.
Proof.
  rewrite ReadArray_vals.
  destruct (read_loop_Extracts Hc (S (String.length s)) s []) as (xs & Hxs & ->); [lia|].
  cbn [app]. by apply Extracts_length.
Qed.

End ReadArray.

(** *** The extraction of an [int] *)

(** [isspace] in the classic locale: the space and the characters 9 to 13. *)
Definition isspace (c : ascii) : bool :=
  let n := nat_of_ascii c in (n =? 32) || ((9 <=? n) && (n <=? 13)).

Fixpoint skipws (s : string) : string :=
  match s with
  | EmptyString => EmptyString
  | String c s' => if isspace c then skipws s' else s
  end.

Definition digit (c : ascii) : option Z :=
  let n := nat_of_ascii c in
  if (48 <=? n) && (n <=? 57) then Some (Z.of_nat (n - 48)) else None.

(** The run of decimal digits at the head of [s]: its value, how many digits
    it has, and what follows it. *)
Fixpoint digits (s : string) (acc : Z) (count : nat) : Z * nat * string :=
  match s with
  | EmptyString => (acc, count, s)
  | String c s' =>
      match digit c with
      | Some d => digits s' (acc * 10 + d)%Z (S count)
      | None => (acc, count, s)
      end
  end.

Definition INT_MAX : Z := (2 ^ 31 - 1)%Z.
Definition INT_MIN : Z := (- 2 ^ 31)%Z.

(** An optional sign at the head of [s]: whether it is a minus, and what
    follows it. *)
Definition read_sign (s : string) : bool * string :=
  match s with
  | String "-"%char r => (true, r)
  | String "+"%char r => (false, r)
  | _ => (false, s)
  end.

(** [stream >> temp] for [int temp], as the standard library does it in the
    classic locale: skip the white space, read an optional sign and then
    decimal digits up to the first character that is not one. The extraction
    fails when there is no digit, or when the value does not fit an [int]. *)
Definition extract_int (s : string) : option (Z * string) :=
  let '(negative, s) := read_sign (skipws s) in
  let '(magnitude, count, rest) := digits s 0%Z 0 in
  if count =? 0 then None
  else
    let value := if negative : bool then (- magnitude)%Z else magnitude in
    if (INT_MIN <=? value)%Z && (value <=? INT_MAX)%Z then Some (value, rest) else None.

Lemma skipws_length (s : string) : String.length (skipws s) ≤ String.length s.
Proof.
  induction s as [|c s IH]; cbn [skipws]; [done|].
  destruct (isspace c); cbn [String.length]; lia.
Qed.

Lemma read_sign_length (s : string) :
  String.length (read_sign s).2 ≤ String.length s.
Proof.
  destruct s as [|c r]; [done|].
  destruct c as [[] [] [] [] [] [] [] []]; cbn; lia.
Qed.

Lemma digits_length (s : string) : ∀ acc count v n rest,
  digits s acc count = (v, n, rest) →
  String.length rest + n = String.length s + count.
Proof.
  induction s as [|c s IH]; intros acc count v n rest Hd; cbn [digits] in Hd.
  - simplify_eq. done.
  - destruct (digit c).
    + apply IH in Hd. cbn [String.length]. lia.
    + simplify_eq. done.
Qed.

Lemma extract_int_consumes : consumes extract_int.
Proof.
  intros s x s' E. unfold extract_int in E.
  pose proof (skipws_length s) as Hws.
  pose proof (read_sign_length (skipws s)) as Hsign.
  destruct (read_sign (skipws s)) as [negative t]. cbn [snd] in Hsign.
  destruct (digits t 0%Z 0) as [[magnitude count] rest] eqn:Ed.
  apply digits_length in Ed.
  destruct (count =? 0) eqn:Ec; [discriminate|].
  apply Nat.eqb_neq in Ec. cbv zeta in E.
  destruct (_ && _) in E; [|discriminate]. simplify_eq. lia.
Qed.

(** *** The reading the claim gives, for comparison *)

(** The words of a string: its maximal runs of characters that are not
    white space. *)
Fixpoint words_from (s : string) (cur : string) : list string :=
  match s with
  | EmptyString => if String.eqb cur EmptyString then [] else [cur]
  | String c s' =>
      if isspace c then
        if String.eqb cur EmptyString then words_from s' EmptyString
        else cur :: words_from s' EmptyString
      else words_from s' (cur ++ String c EmptyString)%string
  end.

Definition words (s : string) : list string := words_from s EmptyString.

(** A word parses as the scalar type when one extraction reads all of it. *)
Definition parse_word {Scalar} (extract : string → option (Scalar * string))
    (w : string) : option Scalar :=
  match extract w with
  | Some (x, EmptyString) => Some x
  | _ => None
  end.

(** The values of the leading words that parse. *)
Fixpoint leading_parsed {Scalar} (extract : string → option (Scalar * string))
    (ws : list string) : list Scalar :=
  match ws with
  | [] => []
  | w :: ws' =>
      match parse_word extract w with
      | Some x => x :: leading_parsed extract ws'
      | None => []
      end
  end.

Definition ReadArray_by_words {Scalar} (extract : string → option (Scalar * string))
    (s : string) : list Scalar :=
  leading_parsed extract (words s).

(** *** Concrete runs *)

Example ReadArray_three : ReadArray 0%Z extract_int " 12  -7 +3 " = [12; -7; 3]%Z.
Proof. reflexivity. Qed.

Example ReadArray_stops : ReadArray 0%Z extract_int "1 2x 3" = [1; 2]%Z.
Proof. reflexivity. Qed.

Example ReadArray_no_number : ReadArray 0%Z extract_int "abc" = [].
Proof. reflexivity. Qed.

(** The string [1-2] is one word, and no extraction reads all of it; yet
    [ReadArray] finds two values in it, so the length of the array is not the
    number of leading words that parse, and is more than the number of
    words. *)
Lemma ReadArray_not_by_words :
  ReadArray 0%Z extract_int "1-2" = [1; -2]%Z
  ∧ words "1-2" = ["1-2"%string]
  ∧ ReadArray_by_words extract_int "1-2" = []
  ∧ length (ReadArray 0%Z extract_int "1-2")
    ≠ length (ReadArray_by_words extract_int "1-2")
  ∧ length (words "1-2") < length (ReadArray 0%Z extract_int "1-2").
Proof. repeat split; try reflexivity; vm_compute; lia. Qed.

Lemma ReadArray_extractions_witness :
  consumes extract_int
  ∧ Extracts extract_int "3 4 x" (ReadArray 0%Z extract_int "3 4 x")
  ∧ (∀ xs, Extracts extract_int "3 4 x" xs → ReadArray 0%Z extract_int "3 4 x" = xs)
  ∧ (extract_int "3 4 x" = None → length (ReadArray 0%Z extract_int "3 4 x") = 0)
  ∧ length (ReadArray 0%Z extract_int EmptyString) = 0.
Proof.
  split; [exact extract_int_consumes|].
  exact (ReadArray_extractions 0%Z extract_int extract_int_consumes "3 4 x").
Defined.


Lemma ReadArray_stream_comment_witness :
  ReadArray_stream 0%Z extract_int
    (String "#" " order 1" +:+ String "010" (" 1 0 0 0" +:+ String "010" "rest"))
  = Ok ([1; 0; 0; 0]%Z, "rest").
Proof.
  rewrite (ReadArray_stream_comment 0%Z extract_int " order 1"
             (" 1 0 0 0" +:+ String "010" "rest") eq_refl).
  reflexivity.
Defined.

Lemma ReadArray_stream_line_witness :
  ReadArray_stream 0%Z extract_int ("1 2" +:+ String "010" "3 4")
  = Ok (ReadArray 0%Z extract_int "1 2", "3 4")
  ∧ ReadArray_stream 0%Z extract_int "3 4" = Ok ([3; 4]%Z, EmptyString).
Proof.
  split.
  - exact (proj1 (ReadArray_stream_line 0%Z extract_int "1 2" "3 4" eq_refl
                    ltac:(discriminate))).
  - exact (proj2 (ReadArray_stream_line 0%Z extract_int "3 4" "" eq_refl
                    ltac:(discriminate)) ltac:(discriminate)).
Defined.

Lemma ReadArray_length_witness :
  length (ReadArray 0%Z extract_int "1-2-3") ≤ 5.
Proof. exact (ReadArray_length 0%Z extract_int extract_int_consumes "1-2-3"). Defined.

End Util.

(** ** The model that [qmt_main] constructs *)

Module Qmt.
Import Util.

Section Construct.
(** From headers that are not at hand: the interpolated lineshape, and the
    reading of one from a file written by [qi_lineshape], which throws when
    the file cannot be read or holds no lineshape. *)
Variable InterpLineshape : Type.
Variable read_lineshape : string → result InterpLineshape.

(** The choice of the lineshape from the option [--lineshape]. *)
Definition select_lineshape (lineshape_arg : string)
    : result (Ramani.Lineshapes * option InterpLineshape) :=
  if String.eqb lineshape_arg "Gaussian" then Ok (Ramani.Gaussian, None)
  else if String.eqb lineshape_arg "Lorentzian" then Ok (Ramani.Lorentzian, None)
  else if String.eqb lineshape_arg "Superlorentzian" then Ok (Ramani.SuperLorentzian, None)
  else
    match read_lineshape lineshape_arg with
    | Ok ls => Ok (Ramani.Interpolated, Some ls)
    | Thrown what => Thrown what
    end.

(** [RamaniModel model{{}, mtsat_sequence, R1_b.Get(), lineshape, interp};] *)
Definition make_model (mtsat_sequence : Ramani.ZSpecSequence) (R1_b : float)
    (lineshape_arg : string) : result (Ramani.RamaniModel InterpLineshape) :=
  match select_lineshape lineshape_arg with
  | Ok (lineshape, interp) =>
      Ok {| Ramani.sequence := mtsat_sequence; Ramani.R1_b := R1_b;
            Ramani.lineshape := lineshape; Ramani.interp := interp |}
  | Thrown what => Thrown what
  end.

Lemma make_model_inv (seq : Ramani.ZSpecSequence) (R1_b : float) (arg : string)
    (m : Ramani.RamaniModel InterpLineshape) :
  make_model seq R1_b arg = Ok m →
  (Ramani.lineshape _ m = Ramani.Interpolated → is_Some (Ramani.interp _ m))
  ∧ (Ramani.lineshape _ m = Ramani.Interpolated ↔
       arg ≠ "Gaussian" ∧ arg ≠ "Lorentzian" ∧ arg ≠ "Superlorentzian")
  ∧ (∀ ls, Ramani.interp _ m = Some ls → read_lineshape arg = Ok ls).
Proof.
  unfold make_model, select_lineshape.
  destruct (String.eqb_spec arg "Gaussian") as [->|Hg];
    [intros [= <-]; cbn; split_and!; [done|split; [done|by intros [? _]]|done]|].
  destruct (String.eqb_spec arg "Lorentzian") as [->|Hl];
    [intros [= <-]; cbn; split_and!; [done|split; [done|by intros (_ & ? & _)]|done]|].
  destruct (String.eqb_spec arg "Superlorentzian") as [->|Hs];
    [intros [= <-]; cbn; split_and!; [done|split; [done|by intros (_ & _ & ?)]|done]|].
  destruct (read_lineshape arg) as [ls|what]; [|done].
  intros [= <-]. cbn. split_and!; [by eauto|done|by intros ? [= <-]].
Qed.

(** X20. A model that [qmt_main] has constructed evaluates its signal
    without a null interpolator, whatever the parameters. It has the
    [Interpolated] lineshape exactly when the option is none of the names
    [Gaussian], [Lorentzian] and [Superlorentzian], compared letter for
    letter, and its interpolator is then the one read from the file of that
    name. *)
Theorem make_model_signal {T : Type} `{Numeric T}
    (QI_Gaussian QI_Lorentzian QI_SuperLorentzian : list float → T → list T)
    (interp_call : InterpLineshape → list float → T → list T)
    (libm_pow : float → float → float)
    (seq : Ramani.ZSpecSequence) (R1_b : float) (arg : string)
    (m : Ramani.RamaniModel InterpLineshape)
    (v : vec T Ramani.NV) (f : vec float Ramani.NF) (cout : list (string * list T)) :
  make_model seq R1_b arg = Ok m →
  is_Some (Ramani.signal InterpLineshape QI_Gaussian QI_Lorentzian QI_SuperLorentzian
             interp_call libm_pow m v f cout).1.1
  ∧ (Ramani.lineshape _ m = Ramani.Interpolated ↔
       arg ≠ "Gaussian" ∧ arg ≠ "Lorentzian" ∧ arg ≠ "Superlorentzian")
  ∧ (∀ ls, Ramani.interp _ m = Some ls → read_lineshape arg = Ok ls).
Proof.
  intros Hm. destruct (make_model_inv seq R1_b arg m Hm) as (Hinterp & Hnames & Hfile).
  split; [|by split].
  unfold Ramani.signal. cbv zeta.
  destruct (Ramani.lineshape _ m) eqn:El; cbn; eauto.
  destruct (Hinterp eq_refl) as [ls ->]. cbn. eauto.
Qed.

End Construct.

Lemma make_model_signal_witness :
  ∃ m, make_model unit (λ _, Ok tt) Ramani.three_offsets 2.5 "SuperLorentzian" = Ok m
    ∧ Ramani.lineshape unit m = Ramani.Interpolated
    ∧ is_Some (@Ramani.signal unit Ramani.term Ramani.term_Numeric
                 Ramani.flat_lineshape Ramani.flat_lineshape Ramani.flat_lineshape
                 (λ _, Ramani.flat_lineshape) (λ x _, x * x)%float m
                 [# Ramani.Const 1; Ramani.Const 0.1; Ramani.Const 10e-6;
                    Ramani.Const 0.1; Ramani.Const 10]
                 [# 0; 1; 1]%float []).1.1.
Proof.
  eexists. split; [reflexivity|].
  destruct (@make_model_signal unit (λ _, Ok tt) Ramani.term Ramani.term_Numeric
              Ramani.flat_lineshape Ramani.flat_lineshape Ramani.flat_lineshape
              (λ _, Ramani.flat_lineshape) (λ x _, x * x)%float
              Ramani.three_offsets 2.5%float "SuperLorentzian" _
              [# Ramani.Const 1; Ramani.Const 0.1; Ramani.Const 10e-6;
                 Ramani.Const 0.1; Ramani.Const 10]
              [# 0; 1; 1]%float [] eq_refl) as (Hsignal & Hnames & _).
  split; [|exact Hsignal].
  apply Hnames. repeat split; discriminate.
Defined.

End Qmt.

(** ** Polynomial images: [itk::PolynomialImage] and [qipolygen] *)

Module PolyGen.
Import Util.

(** *** Image regions and their raster order *)

(** [itk::Index<3>] and [itk::ImageRegion<3>]: a start index and a size. *)
Abbreviation Index3 := (Z * Z * Z)%type.

Record Region := {
  x0 : Z; y0 : Z; z0 : Z;
  nx : nat; ny : nat; nz : nat;
}.

Definition NumberOfPixels (r : Region) : nat := nx r * ny r * nz r.

Definition IsInside (r : Region) (idx : Index3) : bool :=
  let '(i, j, k) := idx in
  bool_decide (x0 r ≤ i < x0 r + Z.of_nat (nx r))%Z
  && bool_decide (y0 r ≤ j < y0 r + Z.of_nat (ny r))%Z
  && bool_decide (z0 r ≤ k < z0 r + Z.of_nat (nz r))%Z.

(** The indices of a region in the order a region iterator visits them: the
    first coordinate runs fastest. *)
Definition region_indices (r : Region) : list Index3 :=
  k ← seqZ (z0 r) (Z.of_nat (nz r));
  j ← seqZ (y0 r) (Z.of_nat (ny r));
  i ← seqZ (x0 r) (Z.of_nat (nx r));
  [(i, j, k)].

(** Whether every index of [inner] lies in [outer]. *)
Definition covers (outer inner : Region) : bool :=
  forallb (IsInside outer) (region_indices inner).

Lemma elem_of_region_indices (r : Region) (idx : Index3) :
  idx ∈ region_indices r ↔ IsInside r idx = true.
Proof.
  destruct idx as [[i j] k]. unfold region_indices, IsInside.
  rewrite !andb_true_iff, !bool_decide_eq_true.
  rewrite list_elem_of_bind. split.
  - intros (k' & (j' & (i' & Hi & Hi')%list_elem_of_bind & Hj')%list_elem_of_bind & Hk').
    apply list_elem_of_singleton in Hi. simplify_eq.
    apply elem_of_seqZ in Hi', Hj', Hk'. lia.
  - intros [[Hi Hj] Hk]. exists k. split; [|apply elem_of_seqZ; lia].
    apply list_elem_of_bind. exists j. split; [|apply elem_of_seqZ; lia].
    apply list_elem_of_bind. exists i. split; [|apply elem_of_seqZ; lia].
    by apply list_elem_of_singleton.
Qed.

Lemma NoDup_region_indices (r : Region) : NoDup (region_indices r).
Proof.
  unfold region_indices.
  apply NoDup_bind; [| |apply NoDup_seqZ].
  - intros k1 k2 idx _ _.
    intros (j1 & (i1 & H1 & _)%list_elem_of_bind & _)%list_elem_of_bind.
    intros (j2 & (i2 & H2 & _)%list_elem_of_bind & _)%list_elem_of_bind.
    apply list_elem_of_singleton in H1, H2. congruence.
  - intros k _. apply NoDup_bind; [| |apply NoDup_seqZ].
    + intros j1 j2 idx _ _.
      intros (i1 & H1 & _)%list_elem_of_bind (i2 & H2 & _)%list_elem_of_bind.
      apply list_elem_of_singleton in H1, H2. congruence.
    + intros j _. apply NoDup_bind; [| |apply NoDup_seqZ].
      * intros i1 i2 idx _ _ H1 H2.
        apply list_elem_of_singleton in H1, H2. congruence.
      * intros i _. apply NoDup_singleton.
Qed.

Lemma length_bind_const {A B} (f : A → list B) (n : nat) (l : list A) :
  (∀ x, length (f x) = n) → length (l ≫= f) = length l * n.
Proof.
  intros Hf. induction l as [|x l IH]; csimpl; [done|].
  rewrite length_app, Hf, IH. lia.
Qed.

Lemma length_region_indices (r : Region) :
  length (region_indices r) = NumberOfPixels r.
Proof.
  unfold region_indices, NumberOfPixels.
  rewrite (length_bind_const _ (ny r * nx r)).
  - rewrite length_seqZ. lia.
  - intros k. rewrite (length_bind_const _ (nx r)).
    + rewrite length_seqZ. lia.
    + intros j. rewrite (length_bind_const _ 1); [|done].
      rewrite length_seqZ. lia.
Qed.

(** *** The image source *)

Section PolynomialImage.
(** [QI::VolumeF] holds [float] pixels: [Pixel] with the conversions the code
    applies, from the literal [0], from a [double], and to [bool]. *)
Variable Pixel : Type.
Variable Pixel_zero : Pixel.
Variable Pixel_of_double : float → Pixel.
Variable Pixel_to_bool : Pixel → bool.

(** The geometry of an image (origin, spacing, direction) and ITK's map from
    an index to a physical point. *)
Variable Geometry : Type.
Abbreviation Point3 := (float * float * float)%type.
Variable IndexToPhysicalPoint : Geometry → Index3 → Point3.

(** [QI::Polynomial], declared in a header that is not at hand. *)
Variable Polynomial : Type.
Variable Polynomial_value : Polynomial → Point3 → float.

Record Image := {
  LargestPossibleRegion : Region;
  geometry : Geometry;
  GetPixel : Index3 → Pixel;
}.

Section Filter.
(** The filter's members and inputs. *)
Variable m_reference : Image.
Variable m_poly : Polynomial.
Variable mask : option Image.

(** [GenerateOutputInformation] gives the output the region of the
    reference and allocates it. *)
Definition output_region : Region := LargestPossibleRegion m_reference.

(** The state of [GenerateData]: the pixels of the output written so far,
    the positions of the two iterators in the raster order of the region,
    and two records kept for the proofs, of the indices passed to
    [imageIt.Set] and of those for which [m_poly.value] was called, oldest
    first. *)
Record state := {
  output : gmap Index3 Pixel;
  imageIt : nat;
  maskIter : nat;
  sets : list Index3;
  evals : list Index3;
}.

Definition IsAtEnd (pos : nat) : bool :=
  bool_decide (NumberOfPixels output_region ≤ pos).

Definition GetIndex (pos : nat) : option Index3 :=
  region_indices output_region !! pos.

Definition TransformIndexToPhysicalPoint (img : Image) (idx : Index3) : Point3 :=
  IndexToPhysicalPoint (geometry img) idx.

(** One turn of the [while] loop. [None] stands for an iterator read past
    the end of its region. *)
Definition body (st : state) : option state :=
  idx ← GetIndex (imageIt st);
  unmasked ← match mask with
             | None => Some true
             | Some mk => midx ← GetIndex (maskIter st); Some (Pixel_to_bool (GetPixel mk midx))
             end;
  let st :=
    if unmasked : bool then
      let p := TransformIndexToPhysicalPoint m_reference idx in
      let val := Polynomial_value m_poly p in
      {| output := <[idx := Pixel_of_double val]> (output st);
         imageIt := imageIt st; maskIter := maskIter st;
         sets := sets st ++ [idx]; evals := evals st ++ [idx] |}
    else
      {| output := <[idx := Pixel_zero]> (output st);
         imageIt := imageIt st; maskIter := maskIter st;
         sets := sets st ++ [idx]; evals := evals st |} in
  Some {| output := output st;
          imageIt := S (imageIt st);
          maskIter := match mask with
                      | Some _ => S (maskIter st)
                      | None => maskIter st
                      end;
          sets := sets st; evals := evals st |}.

(** [while (!imageIt.IsAtEnd()) { ... }]; [None] when the fuel runs out. *)
Fixpoint loop (fuel : nat) (st : state) : option state :=
  match fuel with
  | 0 => None
  | S fuel' => if IsAtEnd (imageIt st) then Some st else st' ← body st; loop fuel' st'
  end.

Definition initial : state :=
  {| output := ∅; imageIt := 0; maskIter := 0; sets := []; evals := [] |}.

(** [GenerateData]. The constructor of an ITK region iterator throws when
    its region is not within the image it walks, which is the case of a mask
    that does not extend over the output. *)
Definition GenerateData : result state :=
  let run :=
    match loop (S (NumberOfPixels output_region)) initial with
    | Some st => Ok st
    | None => Thrown "iterator out of range"
    end in
  match mask with
  | None => run
  | Some mk =>
      if covers (LargestPossibleRegion mk) output_region then run
      else Thrown "Region is outside of buffered region"
  end.

(** *** The loop invariant *)

(** The test [!mask || maskIter.Get()] and the pixel written, for the voxel
    at [idx]. *)
Definition unmasked (idx : Index3) : bool :=
  match mask with
  | None => true
  | Some mk => Pixel_to_bool (GetPixel mk idx)
  end.

Definition voxel_value (idx : Index3) : Pixel :=
  if unmasked idx
  then Pixel_of_double (Polynomial_value m_poly (TransformIndexToPhysicalPoint m_reference idx))
  else Pixel_zero.

(** After [p] turns both iterators stand at position [p], and exactly the
    first [p] voxels of the region have been written, once each. *)
Record Inv (p : nat) (st : state) : Prop := {
  inv_imageIt : imageIt st = p;
  inv_maskIter : is_Some mask → maskIter st = p;
  inv_sets : sets st = take p (region_indices output_region);
  inv_evals : evals st = filter (λ idx, unmasked idx = true) (take p (region_indices output_region));
  inv_output : ∀ idx, output st !! idx =
    if decide (idx ∈ take p (region_indices output_region))
    then Some (voxel_value idx) else None;
}.

Lemma Inv_initial : Inv 0 initial.
Proof.
  split; cbn; done.
Qed.

Lemma body_Inv (p : nat) (st : state) :
  Inv p st → p < NumberOfPixels output_region →
  ∃ st', body st = Some st' ∧ Inv (S p) st'.
Proof.
  intros [Hi Hm Hs He Ho] Hp.
  destruct (lookup_lt_is_Some_2 (region_indices output_region) p) as [idx Hidx].
  { by rewrite length_region_indices. }
  pose proof (take_S_r _ _ _ Hidx) as Htake.
  assert (Hbody : body st = Some
    {| output := <[idx := voxel_value idx]> (output st);
       imageIt := S p;
       maskIter := match mask with
                   | Some _ => S (maskIter st)
                   | None => maskIter st
                   end;
       sets := sets st ++ [idx];
       evals := if unmasked idx then evals st ++ [idx] else evals st |}).
  { unfold body, GetIndex, voxel_value, unmasked. rewrite Hi, Hidx. cbn.
    destruct mask as [mk|] eqn:Emask; cbn.
    - rewrite Hm by done. rewrite Hidx. cbn.
      by destruct (Pixel_to_bool (GetPixel mk idx)).
    - done. }
  eexists. split; [exact Hbody|].
  split; cbn.
  - done.
  - intros Hsome. destruct mask; [|by destruct Hsome]. by rewrite Hm.
  - by rewrite Hs, Htake.
  - rewrite Htake, filter_app, He, filter_cons, filter_nil.
    destruct (unmasked idx) eqn:Eu.
    + by rewrite decide_True.
    + rewrite decide_False by congruence. by rewrite app_nil_r.
  - intros idx'. rewrite Htake. destruct (decide (idx = idx')) as [<-|Hne].
    + rewrite lookup_insert_eq. rewrite decide_True; [done|].
      apply elem_of_app. right. by apply list_elem_of_singleton.
    + rewrite lookup_insert_ne by done. rewrite Ho.
      destruct (decide (idx' ∈ take p _)) as [Hin|Hnin].
      * rewrite decide_True; [done|]. apply elem_of_app. by left.
      * rewrite decide_False; [done|]. rewrite elem_of_app.
        intros [?|?%list_elem_of_singleton]; [done|congruence].
Qed.

Lemma loop_Inv (fuel : nat) : ∀ (p : nat) (st : state),
  Inv p st → p ≤ NumberOfPixels output_region →
  NumberOfPixels output_region - p < fuel →
  ∃ st', loop fuel st = Some st' ∧ Inv (NumberOfPixels output_region) st'.
Proof.
  induction fuel as [|fuel IH]; intros p st HI Hp Hfuel; [lia|].
  cbn [loop]. unfold IsAtEnd. rewrite (inv_imageIt _ _ HI).
  case_bool_decide as Hend.
  - assert (p = NumberOfPixels output_region) as -> by lia. by exists st.
  - destruct (body_Inv p st HI) as (st1 & Hb & HI1); [lia|].
    rewrite Hb. cbn. apply (IH (S p)); [done|lia|lia].
Qed.

Lemma loop_complete :
  ∃ st, loop (S (NumberOfPixels output_region)) initial = Some st
        ∧ Inv (NumberOfPixels output_region) st.
Proof. apply (loop_Inv _ 0); [apply Inv_initial|lia|lia]. Qed.

Lemma GenerateData_Inv (st : state) :
  GenerateData = Ok st → Inv (NumberOfPixels output_region) st.
Proof.
  destruct loop_complete as (st' & Hloop & HI).
  unfold GenerateData. rewrite Hloop. cbv zeta.
  destruct mask as [mk|]; [destruct (covers _ _)|]; intros; by simplify_eq.
Qed.

(** X1. [GenerateData] returns whenever there is no mask or the mask extends
    over the output: the loop reaches the end of the region within its
    fuel. *)
Theorem GenerateData_returns :
  match mask with
  | None => True
  | Some mk => covers (LargestPossibleRegion mk) output_region = true
  end →
  ∃ st, GenerateData = Ok st.
Proof.
  destruct loop_complete as (st' & Hloop & HI).
  unfold GenerateData. rewrite Hloop. cbv zeta.
  destruct mask as [mk|]; [intros ->|]; by exists st'.
Qed.

Lemma GenerateData_sets (st : state) :
  GenerateData = Ok st → sets st = region_indices output_region.
Proof.
  intros Hgd. apply GenerateData_Inv in Hgd as [_ _ Hs _ _].
  by rewrite take_ge in Hs by (by rewrite length_region_indices).
Qed.

Lemma GenerateData_output (st : state) (idx : Index3) :
  GenerateData = Ok st →
  output st !! idx =
    if decide (idx ∈ region_indices output_region) then Some (voxel_value idx) else None.
Proof.
  intros Hgd. apply GenerateData_Inv in Hgd as [_ _ _ _ Ho].
  rewrite Ho. by rewrite take_ge by (by rewrite length_region_indices).
Qed.

Lemma GenerateData_full (st : state) (idx : Index3) :
  GenerateData = Ok st →
  idx ∈ region_indices output_region ↔ is_Some (output st !! idx).
Proof.
  intros Hgd. rewrite (GenerateData_output st idx Hgd).
  case_decide; split; intros Hx; try done; by destruct Hx.
Qed.

(** C1. After [GenerateData] has completed, a voxel of the output whose mask
    value converts to [false] holds 0 and the polynomial was not evaluated
    for it; a voxel with no mask, or with a mask value that converts to
    [true], holds the value of the polynomial at the physical point of its
    index, converted to the pixel type, and the polynomial was evaluated for
    it. *)
Theorem GenerateData_mask_skip (st : state) (idx : Index3) :
  GenerateData = Ok st →
  idx ∈ region_indices output_region →
  (∀ mk, mask = Some mk → Pixel_to_bool (GetPixel mk idx) = false →
     output st !! idx = Some Pixel_zero ∧ idx ∉ evals st)
  ∧ (mask = None ∨ (∃ mk, mask = Some mk ∧ Pixel_to_bool (GetPixel mk idx) = true) →
     output st !! idx =
       Some (Pixel_of_double
               (Polynomial_value m_poly (TransformIndexToPhysicalPoint m_reference idx)))
     ∧ idx ∈ evals st).
Proof.
  intros Hgd Hidx. apply GenerateData_Inv in Hgd as [_ _ _ He Ho].
  specialize (Ho idx). rewrite take_ge in Ho, He by (by rewrite length_region_indices).
  rewrite decide_True in Ho by done. rewrite Ho, He.
  unfold voxel_value. split.
  - intros mk Hmk Hfalse.
    assert (Hu : unmasked idx = false) by (unfold unmasked; by rewrite Hmk).
    rewrite Hu. split; [done|]. rewrite list_elem_of_filter. intros [Ht _]. congruence.
  - intros Hvis.
    assert (Hu : unmasked idx = true).
    { unfold unmasked. destruct Hvis as [->|(mk & -> & Ht)]; done. }
    rewrite Hu. split; [done|]. by apply list_elem_of_filter.
Qed.

(** C2. After [GenerateData] has completed, the calls of [imageIt.Set] were
    made at the indices of the output region in raster order, so each voxel
    of the region was written exactly once and no other index was written;
    every voxel of the region holds a value, which is 0 or the value of the
    polynomial, and the iterator is at its end. *)
Theorem GenerateData_writes_once (st : state) :
  GenerateData = Ok st →
  sets st = region_indices output_region
  ∧ (∀ idx, idx ∈ region_indices output_region →
       count_occ (λ x y : Index3, decide (x = y)) (sets st) idx = 1)
  ∧ (∀ idx, idx ∉ region_indices output_region →
       count_occ (λ x y : Index3, decide (x = y)) (sets st) idx = 0)
  ∧ (∀ idx, idx ∈ region_indices output_region ↔ is_Some (output st !! idx))
  ∧ (∀ idx, idx ∈ region_indices output_region →
       output st !! idx = Some Pixel_zero
       ∨ output st !! idx =
           Some (Pixel_of_double
                   (Polynomial_value m_poly (TransformIndexToPhysicalPoint m_reference idx))))
  ∧ IsAtEnd (imageIt st) = true.
Proof.
  intros Hgd. rewrite (GenerateData_sets st Hgd). split; [done|].
  split; [|split; [|split; [|split]]].
  - intros idx Hidx.
    apply NoDup_count_occ'; [|by apply list_elem_of_In].
    apply NoDup_ListNoDup, NoDup_region_indices.
  - intros idx Hidx. apply count_occ_not_In. by rewrite <- list_elem_of_In.
  - intros idx. by apply GenerateData_full.
  - intros idx Hidx. rewrite (GenerateData_output st idx Hgd).
    rewrite decide_True by done. unfold voxel_value.
    destruct (unmasked idx); auto.
  - apply GenerateData_Inv in Hgd as [Hi _ _ _ _].
    unfold IsAtEnd. rewrite Hi. by apply bool_decide_eq_true.
Qed.

Lemma GenerateData_evals (st : state) :
  GenerateData = Ok st →
  evals st = filter (λ idx, unmasked idx = true) (region_indices output_region).
Proof.
  intros Hgd. apply GenerateData_Inv in Hgd as [_ _ _ He _].
  by rewrite take_ge in He by (by rewrite length_region_indices).
Qed.

(** X12. After [GenerateData] has completed, the calls of [m_poly.value]
    were made for the voxels that pass the test [!mask || maskIter.Get()], in
    raster order and once each: the polynomial is evaluated as many times as
    there are such voxels, and never more often than the region has
    voxels. *)
Theorem GenerateData_evaluations (st : state) :
  GenerateData = Ok st →
  evals st = filter (λ idx, unmasked idx = true) (region_indices output_region)
  ∧ NoDup (evals st)
  ∧ length (evals st) ≤ NumberOfPixels output_region.
Proof.
  intros Hgd. rewrite (GenerateData_evals st Hgd). split; [done|]. split.
  - apply NoDup_filter, NoDup_region_indices.
  - rewrite <- length_region_indices. apply length_filter.
Qed.

End Filter.

(** *** Masks that hide nothing, or everything *)

Lemma filter_all {A} (P : A → Prop) `{∀ x, Decision (P x)} (l : list A) :
  (∀ x, x ∈ l → P x) → filter P l = l.
Proof.
  induction l as [|x l IH]; intros Hall; [done|].
  rewrite filter_cons, decide_True by (apply Hall; left).
  f_equal. apply IH. intros y Hy. apply Hall. by right.
Qed.

Lemma filter_none {A} (P : A → Prop) `{∀ x, Decision (P x)} (l : list A) :
  (∀ x, x ∈ l → ¬ P x) → filter P l = [].
Proof.
  induction l as [|x l IH]; intros Hnone; [done|].
  rewrite filter_cons, decide_False by (apply Hnone; left).
  apply IH. intros y Hy. apply Hnone. by right.
Qed.

(** X13. A mask whose value converts to [true] at every voxel of the output
    region changes nothing: the run with it writes the same pixels, in the
    same order, and evaluates the polynomial at the same voxels as the run
    without a mask. *)
Theorem GenerateData_full_mask (reference : Image) (poly : Polynomial)
    (mk : Image) (st1 st2 : state) :
  (∀ idx, idx ∈ region_indices (output_region reference) →
     Pixel_to_bool (GetPixel mk idx) = true) →
  GenerateData reference poly None = Ok st1 →
  GenerateData reference poly (Some mk) = Ok st2 →
  output st1 = output st2 ∧ sets st1 = sets st2 ∧ evals st1 = evals st2.
Proof.
  intros Hall H1 H2. split; [|split].
  - apply map_eq. intros idx.
    rewrite (GenerateData_output _ _ _ st1 idx H1), (GenerateData_output _ _ _ st2 idx H2).
    case_decide as Hin; [|done]. unfold voxel_value, unmasked.
    by rewrite (Hall idx Hin).
  - by rewrite (GenerateData_sets _ _ _ st1 H1), (GenerateData_sets _ _ _ st2 H2).
  - rewrite (GenerateData_evals _ _ _ st1 H1), (GenerateData_evals _ _ _ st2 H2).
    rewrite !filter_all; [done| |done].
    intros idx Hin. unfold unmasked. by apply Hall.
Qed.

(** X14. Under a mask whose value converts to [false] at every voxel of the
    output region, a completed run has evaluated the polynomial for no voxel
    at all, and every voxel of the region holds 0. *)
Theorem GenerateData_empty_mask (reference : Image) (poly : Polynomial)
    (mk : Image) (st : state) :
  (∀ idx, idx ∈ region_indices (output_region reference) →
     Pixel_to_bool (GetPixel mk idx) = false) →
  GenerateData reference poly (Some mk) = Ok st →
  evals st = []
  ∧ ∀ idx, idx ∈ region_indices (output_region reference) →
      output st !! idx = Some Pixel_zero.
Proof.
  intros Hnone Hgd. split.
  - rewrite (GenerateData_evals _ _ _ st Hgd). apply filter_none.
    intros idx Hin. unfold unmasked. rewrite (Hnone idx Hin). discriminate.
  - intros idx Hin. rewrite (GenerateData_output _ _ _ st idx Hgd).
    rewrite decide_True by done. unfold voxel_value, unmasked.
    by rewrite (Hnone idx Hin).
Qed.

(** *** The driver of [qipolygen] *)

(** The rest of [QI::Polynomial], the extraction of a [double] from a
    stream, and the unspecified contents of a fresh array. *)
Variable Polynomial_new : Z → Polynomial.
Variable nterms : Polynomial → nat.
Variable setCoeffs : Polynomial → list float → Polynomial.
Variable Polynomial_print : Polynomial → string.
Variable extract_double : string → option (float * string).
Variable uninit : float.

(** What the program reads and writes: the standard input still unread, the
    lines printed, the images written to files, and the voxels
    processed. *)
Record World := {
  cin : string;
  cout : list string;
  files : list (string * gmap Index3 Pixel);
  processed : list Index3;
}.

(** A computation of the program: it runs in a world, and ends in a value or
    in an exception. *)
Definition M (A : Type) : Type := World → result A * World.

Definition M_ret {A} (a : A) : M A := λ w, (Ok a, w).

Definition M_bind {A B} (c : M A) (k : A → M B) : M B :=
  λ w, match c w with
       | (Ok a, w') => k a w'
       | (Thrown what, w') => (Thrown what, w')
       end.

Notation "x <- c1 ;; c2" := (M_bind c1 (λ x, c2))
  (at level 100, c1 at next level, right associativity).
Notation "c1 ;;; c2" := (M_bind c1 (λ _, c2))
  (at level 100, right associativity).

(** Modelled from the spec: the macro [QI_EXCEPTION(what)] of [QI/Macro.h],
    which is not among the sources, raises the fatal error that aborts the
    run. *)
Definition throw {A} (what : string) : M A := λ w, (Thrown what, w).

Definition print (line : string) : M unit :=
  λ w, (Ok tt, {| cin := cin w; cout := cout w ++ [line];
                  files := files w; processed := processed w |}).

Definition when (b : bool) (c : M unit) : M unit := if b then c else M_ret tt.

(** [QI::ReadArray(cin, coeff)] *)
Definition ReadArray_cin : M (list float) :=
  λ w, match ReadArray_stream uninit extract_double (cin w) with
       | Ok (coeff, rest) =>
           (Ok coeff, {| cin := rest; cout := cout w;
                         files := files w; processed := processed w |})
       | Thrown what => (Thrown what, w)
       end.

(** [image->Update()] runs [GenerateData] on the members set before. *)
Definition Update (reference : Image) (poly : Polynomial) (mask : option Image) : M state :=
  λ w, match GenerateData reference poly mask with
       | Ok st =>
           (Ok st, {| cin := cin w; cout := cout w; files := files w;
                      processed := processed w ++ sets st |})
       | Thrown what => (Thrown what, w)
       end.

Definition WriteImage (img : gmap Index3 Pixel) (path : string) : M unit :=
  λ w, (Ok tt, {| cin := cin w; cout := cout w;
                  files := files w ++ [(path, img)]; processed := processed w |}).

Definition EXIT_SUCCESS : Z := 0.

(** [main], from the point where the arguments have been read: [verbose],
    [mask] and [order] come from the options, [reference] and [outname] from
    the two positional arguments. *)
Definition main (verbose : bool) (mask : option Image) (order : Z)
    (reference : Image) (outname : string) : M Z :=
  when verbose (print "Building polynomial") ;;;
  let poly := Polynomial_new order in
  coeff <- ReadArray_cin ;;
  (if decide (Eigen.rows coeff ≠ nterms poly)
   then throw ("Require " +:+ pretty (nterms poly) +:+ " terms for "
               +:+ pretty order +:+ " order polynomial")
   else M_ret tt) ;;;
  let poly := setCoeffs poly coeff in
  print (Polynomial_print poly) ;;;
  when verbose (print "Generating image") ;;;
  st <- Update reference poly mask ;;
  WriteImage (output st) outname ;;;
  when verbose (print "Finished.") ;;;
  M_ret EXIT_SUCCESS.

(** C6. When a line of coefficients was read from the standard input: if
    their number differs from the term count of the polynomial of the
    configured order, [main] ends in an exception, no voxel has been
    processed and no image written; if it is equal, [main] goes on to
    generate the image, and when the generation completes the image written
    under the output name holds a value at every voxel of the reference
    region and [main] returns [EXIT_SUCCESS]. *)
Theorem main_checks_coefficients (verbose : bool) (mask : option Image) (order : Z)
    (reference : Image) (outname : string) (w : World)
    (coeff : list float) (rest : string) :
  ReadArray_stream uninit extract_double (cin w) = Ok (coeff, rest) →
  let poly := Polynomial_new order in
  let run := main verbose mask order reference outname w in
  (length coeff ≠ nterms poly →
     (∃ what, run.1 = Thrown what)
     ∧ files run.2 = files w ∧ processed run.2 = processed w)
  ∧ (length coeff = nterms poly →
     (∀ what, GenerateData reference (setCoeffs poly coeff) mask = Thrown what →
        run.1 = Thrown what ∧ files run.2 = files w ∧ processed run.2 = processed w)
     ∧ (∀ st, GenerateData reference (setCoeffs poly coeff) mask = Ok st →
        run.1 = Ok EXIT_SUCCESS
        ∧ files run.2 = files w ++ [(outname, output st)]
        ∧ processed run.2 = processed w ++ region_indices (LargestPossibleRegion reference)
        ∧ ∀ idx, idx ∈ region_indices (LargestPossibleRegion reference)
                 ↔ is_Some (output st !! idx))).
Proof.
  intros Hread. cbv zeta.
  unfold main, M_bind, when, print, M_ret, ReadArray_cin, Update, WriteImage, throw,
    Eigen.rows.
  destruct verbose; cbn [cin cout files processed]; rewrite Hread.
  all: split;
    [ intros Hne; rewrite !decide_True by done; cbn; eauto
    | intros Heq; rewrite !decide_False by (intros ?; done) ].
  all: split; [intros what Hgd | intros st Hgd]; rewrite !Hgd; cbn; [by eauto|].
  all: rewrite (GenerateData_sets _ _ _ _ Hgd).
  all: split_and!; try done; intros idx; exact (GenerateData_full _ _ _ _ idx Hgd).
Qed.

(** X2. When no line can be read from the standard input, [main] ends in the
    exception of [ReadArray], and no voxel is processed and no image
    written. *)
Theorem main_read_failure (verbose : bool) (mask : option Image) (order : Z)
    (reference : Image) (outname : string) (w : World) (what : string) :
  ReadArray_stream uninit extract_double (cin w) = Thrown what →
  (main verbose mask order reference outname w).1 = Thrown what
  ∧ files (main verbose mask order reference outname w).2 = files w
  ∧ processed (main verbose mask order reference outname w).2 = processed w.
Proof.
  intros Hread.
  unfold main, M_bind, when, print, M_ret, ReadArray_cin.
  destruct verbose; cbn [cin cout files processed]; by rewrite Hread.
Qed.

(** *** The options and arguments of [qipolygen] *)

(** From libraries: [QI::ReadImage] (it throws when the file cannot be
    read), [std::stoi] (it throws when there is no number), [atoi], and
    [QI::GetVersion]. *)
Variable ReadImage : string → result Image.
Variable stoi : string → result Z.
Variable atoi : string → Z.
Variable GetVersion : string.

Definition usage : string :=
"Usage is: qipolygen [options] reference output 

Generates a volume image from a 3D polynomial, which is read from stdin

Options:
    --help, -h        : Print this message.
    --verbose, -v     : Print more information.
    --mask, -m file   : Mask input with specified file.
    --order, -o N     : Specify the polynomial order (default 2)
    --threads, -T N   : Use N threads (default=hardware limit).
".

Definition EXIT_FAILURE : Z := 1.

(** The variables the option loop sets; [threads] is the global maximum
    number of threads, when it was set. *)
Record Options := {
  opt_verbose : bool;
  opt_mask : option Image;
  opt_order : Z;
  opt_threads : option Z;
}.

(** [bool verbose = false; mask = ITK_NULLPTR; order = 2] *)
Definition default_options : Options :=
  {| opt_verbose := false; opt_mask := None; opt_order := 2; opt_threads := None |}.

(** What one turn of the option loop ends in: the loop goes on, or [main]
    returns. *)
Inductive Parsed :=
| Continue (o : Options)
| Return (code : Z).

Definition lift {A} (r : result A) : M A := λ w, (r, w).

(** The [switch (c)], for the option character [c] that [getopt_long]
    returned and its argument [optarg]. *)
Definition handle_option (c : ascii) (optarg : string) (o : Options) : M Parsed :=
  match c with
  | "v"%char =>
      M_ret (Continue {| opt_verbose := true; opt_mask := opt_mask o;
                         opt_order := opt_order o; opt_threads := opt_threads o |})
  | "m"%char =>
      when (opt_verbose o) (print ("Reading mask file " +:+ optarg)) ;;;
      img <- lift (ReadImage optarg) ;;
      M_ret (Continue {| opt_verbose := opt_verbose o; opt_mask := Some img;
                         opt_order := opt_order o; opt_threads := opt_threads o |})
  | "o"%char =>
      order <- lift (stoi optarg) ;;
      when (opt_verbose o) (print ("Polynomical order is: " +:+ pretty order)) ;;;
      M_ret (Continue {| opt_verbose := opt_verbose o; opt_mask := opt_mask o;
                         opt_order := order; opt_threads := opt_threads o |})
  | "T"%char =>
      M_ret (Continue {| opt_verbose := opt_verbose o; opt_mask := opt_mask o;
                         opt_order := opt_order o; opt_threads := Some (atoi optarg) |})
  | "h"%char =>
      print GetVersion ;;; print usage ;;; M_ret (Return EXIT_SUCCESS)
  | "?"%char => M_ret (Return EXIT_FAILURE)
  | _ =>
      print ("Unhandled option " +:+ String c EmptyString) ;;;
      M_ret (Return EXIT_FAILURE)
  end.

(** [while ((c = getopt_long(...)) != -1) switch (c) ...], over the options
    of the command line in the order [getopt_long] returns them. *)
Fixpoint parse_options (opts : list (ascii * string)) (o : Options) : M Parsed :=
  match opts with
  | [] => M_ret (Continue o)
  | (c, optarg) :: opts' =>
      r <- handle_option c optarg o ;;
      match r with
      | Continue o' => parse_options opts' o'
      | Return code => M_ret (Return code)
      end
  end.

(** The whole of [main]: [opts] are the options and [args] the arguments
    that are left, [argv[optind]] and after. *)
Definition qipolygen (opts : list (ascii * string)) (args : list string) : M Z :=
  r <- parse_options opts default_options ;;
  match r with
  | Return code => M_ret code
  | Continue o =>
      match args with
      | [refname; outname] =>
          when (opt_verbose o) (print ("Reading image " +:+ refname)) ;;;
          reference <- lift (ReadImage refname) ;;
          main (opt_verbose o) (opt_mask o) (opt_order o) reference outname
      | _ =>
          print "Incorrect number of arguments." ;;; print usage ;;;
          M_ret EXIT_FAILURE
      end
  end.

(** What a computation leaves alone: the standard input, the files and the
    voxels processed. *)
Definition quiet {A} (c : M A) : Prop :=
  ∀ w, cin (c w).2 = cin w ∧ files (c w).2 = files w ∧ processed (c w).2 = processed w.

Lemma quiet_ret {A} (a : A) : quiet (M_ret a).
Proof. by intros w. Qed.

Lemma quiet_lift {A} (r : result A) : quiet (lift r).
Proof. by intros w. Qed.

Lemma quiet_print (line : string) : quiet (print line).
Proof. by intros w. Qed.

Lemma quiet_when (b : bool) (c : M unit) : quiet c → quiet (when b c).
Proof. destruct b; [done | intros _; apply quiet_ret]. Qed.

Lemma quiet_bind {A B} (c : M A) (k : A → M B) :
  quiet c → (∀ a, quiet (k a)) → quiet (M_bind c k).
Proof.
  intros Hc Hk w. unfold M_bind. specialize (Hc w).
  destruct (c w) as [[a|what] w']; cbn [snd] in *; [|done].
  specialize (Hk a w'). destruct Hk as (-> & -> & ->). done.
Qed.

Lemma quiet_handle_option (c : ascii) (optarg : string) (o : Options) :
  quiet (handle_option c optarg o).
Proof.
  unfold handle_option.
  destruct c as [[] [] [] [] [] [] [] []];
    repeat first [ apply quiet_ret | apply quiet_lift | apply quiet_print
                 | apply quiet_when | apply quiet_bind | intros ? ].
Qed.

Lemma quiet_parse_options (opts : list (ascii * string)) : ∀ o,
  quiet (parse_options opts o).
Proof.
  induction opts as [|[c optarg] opts IH]; intros o; cbn [parse_options].
  - apply quiet_ret.
  - apply quiet_bind; [apply quiet_handle_option|].
    intros [o'|code]; [apply IH | apply quiet_ret].
Qed.

Lemma main_outcome (verbose : bool) (mask : option Image) (order : Z)
    (reference : Image) (outname : string) (w : World) :
  ((main verbose mask order reference outname w).1 = Ok EXIT_SUCCESS
   ∧ ∃ img, files (main verbose mask order reference outname w).2
            = files w ++ [(outname, img)])
  ∨ ((∃ what, (main verbose mask order reference outname w).1 = Thrown what)
     ∧ files (main verbose mask order reference outname w).2 = files w).
Proof.
  unfold main, M_bind, when, print, M_ret, ReadArray_cin, Update, WriteImage, throw.
  destruct verbose; cbn [cin cout files processed].
  all: destruct (ReadArray_stream uninit extract_double (cin w)) as [[coeff rest]|what];
    [|right; cbn; eauto].
  all: case_decide; [right; cbn; eauto|].
  all: destruct (GenerateData reference _ mask) as [st|what]; [left|right]; cbn; eauto.
Qed.

Lemma parse_options_app (pre : list (ascii * string)) : ∀ post o w,
  parse_options (pre ++ post) o w =
  match parse_options pre o w with
  | (Ok (Continue o'), w') => parse_options post o' w'
  | other => other
  end.
Proof.
  induction pre as [|[c optarg] pre IH]; intros post o w; cbn [app parse_options].
  - done.
  - unfold M_bind.
    destruct (handle_option c optarg o w) as [[[o'|code]|what] w']; [apply IH|done|done].
Qed.

(** X15. Whatever the command line and the standard input, [qipolygen]
    writes at most one image, under the name given as its second argument,
    and only in a run that returns [EXIT_SUCCESS]; a run that ends in an
    exception or returns [EXIT_FAILURE] has written nothing. *)
Theorem qipolygen_output (opts : list (ascii * string)) (args : list string) (w : World) :
  files (qipolygen opts args w).2 = files w
  ∨ ((qipolygen opts args w).1 = Ok EXIT_SUCCESS
     ∧ ∃ refname outname img,
         args = [refname; outname]
         ∧ files (qipolygen opts args w).2 = files w ++ [(outname, img)]).
Proof.
  remember (qipolygen opts args w) as run eqn:Hrun.
  unfold qipolygen in Hrun. unfold M_bind at 1 in Hrun.
  pose proof (quiet_parse_options opts default_options w) as (_ & Hf & _).
  destruct (parse_options opts default_options w) as [[[o|code]|what] w1];
    cbn [snd] in Hf; [|subst run; by left..].
  destruct args as [|refname [|outname [|extra args]]];
    [subst run; by left..| |subst run; by left].
  unfold M_bind at 1 in Hrun.
  pose proof (quiet_when (opt_verbose o) _ (quiet_print ("Reading image " +:+ refname)) w1)
    as (_ & Hf2 & _).
  destruct (when (opt_verbose o) (print ("Reading image " +:+ refname)) w1)
    as [[[]|what] w2]; cbn [snd] in Hf2; [|subst run; left; cbn [snd]; congruence].
  unfold M_bind at 1, lift in Hrun.
  destruct (ReadImage refname) as [reference|what];
    [|subst run; left; cbn [snd]; congruence].
  subst run.
  destruct (main_outcome (opt_verbose o) (opt_mask o) (opt_order o) reference outname w2)
    as [[Hok [img Himg]]|[_ Hsame]].
  - right. split; [done|]. exists refname, outname, img. split; [done|]. congruence.
  - left. congruence.
Qed.

(** X16. When the options have been read and the arguments left are not
    exactly two, [qipolygen] prints the message and the usage and returns
    [EXIT_FAILURE]; it has then read nothing from the standard input,
    processed no voxel and written no image. *)
Theorem qipolygen_wrong_arguments (opts : list (ascii * string)) (args : list string)
    (w w' : World) (o : Options) :
  parse_options opts default_options w = (Ok (Continue o), w') →
  length args ≠ 2 →
  (qipolygen opts args w).1 = Ok EXIT_FAILURE
  ∧ cout (qipolygen opts args w).2 = cout w' ++ ["Incorrect number of arguments."; usage]
  ∧ cin (qipolygen opts args w).2 = cin w
  ∧ files (qipolygen opts args w).2 = files w
  ∧ processed (qipolygen opts args w).2 = processed w.
Proof.
  intros Hparse Hargs.
  pose proof (quiet_parse_options opts default_options w) as Hq.
  rewrite Hparse in Hq. cbn [snd] in Hq. destruct Hq as (Hc & Hf & Hp).
  assert (Hrun : qipolygen opts args w =
    (Ok EXIT_FAILURE,
     {| cin := cin w'; cout := cout w' ++ ["Incorrect number of arguments."; usage];
        files := files w'; processed := processed w' |})).
  { unfold qipolygen. unfold M_bind at 1. rewrite Hparse.
    destruct args as [|refname [|outname [|extra args]]]; try done.
    all: unfold M_bind, print, M_ret; cbn; by rewrite <- app_assoc. }
  rewrite Hrun. cbn [fst snd cin cout files processed]. done.
Qed.

(** X17. The option [h] ends the run with [EXIT_SUCCESS] after the version
    and the usage have been printed, and an option that [getopt_long]
    rejects ends it with [EXIT_FAILURE]: the options and arguments after it
    are not looked at, and no image is read for the reference. *)
Theorem qipolygen_early_return (pre post : list (ascii * string)) (optarg : string)
    (args : list string) (w w' : World) (o : Options) :
  parse_options pre default_options w = (Ok (Continue o), w') →
  qipolygen (pre ++ ("h"%char, optarg) :: post) args w
  = (Ok EXIT_SUCCESS,
     {| cin := cin w'; cout := cout w' ++ [GetVersion; usage];
        files := files w'; processed := processed w' |})
  ∧ qipolygen (pre ++ ("?"%char, optarg) :: post) args w = (Ok EXIT_FAILURE, w').
Proof.
  intros Hparse. unfold qipolygen. split.
  - unfold M_bind at 1. rewrite parse_options_app, Hparse.
    cbn [parse_options handle_option].
    unfold M_bind, print, M_ret. cbn. by rewrite <- app_assoc.
  - unfold M_bind at 1. rewrite parse_options_app, Hparse.
    cbn [parse_options handle_option]. done.
Qed.

End PolynomialImage.
End PolyGen.

(** ** A run on a small volume *)

(** A volume of 2 x 2 x 1 voxels with unit geometry, the mask
    [true, false, true, false] in raster order, and the first-order
    polynomial [1 + 2 x + 3 y + 4 z]. Pixels are kept at full precision. *)
Module Demo.
Import Util PolyGen.

Definition to_bool (p : float) : bool := negb (p =? 0)%float.

Definition of_Z (z : Z) : float :=
  if (z <? 0)%Z then (- PrimFloat.of_uint63 (Uint63.of_Z (- z)))%float
  else PrimFloat.of_uint63 (Uint63.of_Z z).

Definition point (_ : unit) (idx : Index3) : float * float * float :=
  let '(i, j, k) := idx in (of_Z i, of_Z j, of_Z k).

Record poly := { order : Z; coeffs : list float }.

Definition value (p : poly) (pt : float * float * float) : float :=
  let '(x, y, z) := pt in
  let c i := nth i (coeffs p) 0%float in
  (c 0%nat + c 1%nat * x + c 2%nat * y + c 3%nat * z)%float.

Definition new_poly (o : Z) : poly := {| order := o; coeffs := [] |}.

Definition nterms (p : poly) : nat :=
  Z.to_nat ((order p + 1) * (order p + 2) * (order p + 3) / 6).

Definition setCoeffs (p : poly) (c : list float) : poly :=
  {| order := order p; coeffs := c |}.

Definition print_poly (p : poly) : string := "Polynomial".

Definition extract (s : string) : option (float * string) :=
  match extract_int s with
  | Some (z, r) => Some (of_Z z, r)
  | None => None
  end.

Definition volume : Region :=
  {| x0 := 0; y0 := 0; z0 := 0; nx := 2; ny := 2; nz := 1 |}.

Definition reference : Image float unit :=
  {| LargestPossibleRegion := volume; geometry := tt; GetPixel := λ _, 0%float |}.

Definition mask_img : Image float unit :=
  {| LargestPossibleRegion := volume; geometry := tt;
     GetPixel := λ '(i, _, _), if (i =? 0)%Z then 1%float else 0%float |}.

Definition p1 : poly := {| order := 1; coeffs := [1; 2; 3; 4]%float |}.

Definition generate (mask : option (Image float unit)) : result (state float) :=
  GenerateData float 0%float (λ x, x) to_bool unit point poly value reference p1 mask.

Definition run_main (input : string) : result Z * World float :=
  main float 0%float (λ x, x) to_bool unit point poly value
    new_poly nterms setCoeffs print_poly extract 0%float
    false (Some mask_img) 1 reference "out.nii"
    {| cin := input; cout := []; files := []; processed := [] |}.

Lemma generate_masked_returns : ∃ st, generate (Some mask_img) = Ok st.
Proof. vm_compute. eauto. Defined.

Lemma GenerateData_mask_skip_witness :
  ∃ st, generate (Some mask_img) = Ok st
    ∧ (output float st !! (1, 0, 0)%Z = Some 0%float ∧ (1, 0, 0)%Z ∉ evals float st)
    ∧ (output float st !! (0, 1, 0)%Z = Some 4%float ∧ (0, 1, 0)%Z ∈ evals float st).
Proof.
  destruct generate_masked_returns as [st Hgd]. exists st. split; [exact Hgd|].
  split.
  - refine (proj1 (GenerateData_mask_skip float 0%float (λ x, x) to_bool unit point
                     poly value reference p1 (Some mask_img) st (1, 0, 0)%Z Hgd _)
                  mask_img eq_refl eq_refl).
    apply elem_of_region_indices. reflexivity.
  - refine (proj2 (GenerateData_mask_skip float 0%float (λ x, x) to_bool unit point
                     poly value reference p1 (Some mask_img) st (0, 1, 0)%Z Hgd _) _).
    + apply elem_of_region_indices. reflexivity.
    + right. exists mask_img. split; reflexivity.
Defined.

Lemma GenerateData_writes_once_witness :
  ∃ st, generate (Some mask_img) = Ok st
    ∧ sets float st = [(0, 0, 0); (1, 0, 0); (0, 1, 0); (1, 1, 0)]%Z
    ∧ IsAtEnd float unit reference (imageIt float st) = true.
Proof.
  destruct generate_masked_returns as [st Hgd]. exists st. split; [exact Hgd|].
  destruct (GenerateData_writes_once float 0%float (λ x, x) to_bool unit point
              poly value reference p1 (Some mask_img) st Hgd)
    as (Hsets & _ & _ & _ & _ & Hend).
  split; [exact Hsets | exact Hend].
Defined.

Lemma main_checks_coefficients_witness :
  (∃ what, (run_main "1 2 3").1 = Thrown what)
  ∧ files float (run_main "1 2 3").2 = []
  ∧ processed float (run_main "1 2 3").2 = []
  ∧ (run_main "1 2 3 4").1 = Ok EXIT_SUCCESS
  ∧ processed float (run_main "1 2 3 4").2 = [(0, 0, 0); (1, 0, 0); (0, 1, 0); (1, 1, 0)]%Z.
Proof.
  pose proof (main_checks_coefficients float 0%float (λ x, x) to_bool unit point
                poly value new_poly nterms setCoeffs print_poly extract 0%float
                false (Some mask_img) 1 reference "out.nii"
                {| cin := "1 2 3"; cout := []; files := []; processed := [] |}
                [1; 2; 3]%float EmptyString eq_refl) as [Hbad _].
  pose proof (main_checks_coefficients float 0%float (λ x, x) to_bool unit point
                poly value new_poly nterms setCoeffs print_poly extract 0%float
                false (Some mask_img) 1 reference "out.nii"
                {| cin := "1 2 3 4"; cout := []; files := []; processed := [] |}
                [1; 2; 3; 4]%float EmptyString eq_refl) as [_ Hgood].
  destruct (Hbad ltac:(vm_compute; lia)) as (Hthrown & Hfiles & Hproc).
  destruct generate_masked_returns as [st Hgd].
  destruct (proj2 (Hgood eq_refl) st Hgd) as (Hok & _ & Hproc' & _).
  split; [exact Hthrown|]. split; [exact Hfiles|]. split; [exact Hproc|].
  split; [exact Hok | exact Hproc'].
Defined.

Lemma GenerateData_returns_witness :
  covers volume (output_region float unit reference) = true
  ∧ ∃ st, generate (Some mask_img) = Ok st.
Proof.
  split; [reflexivity|].
  exact (GenerateData_returns float 0%float (λ x, x) to_bool unit point poly value
           reference p1 (Some mask_img) eq_refl).
Defined.

Lemma main_read_failure_witness :
  (run_main "# no coefficients").1 = Thrown "Failed to read input."
  ∧ files float (run_main "# no coefficients").2 = []
  ∧ processed float (run_main "# no coefficients").2 = [].
Proof.
  exact (main_read_failure float 0%float (λ x, x) to_bool unit point poly value
           new_poly nterms setCoeffs print_poly extract 0%float
           false (Some mask_img) 1 reference "out.nii"
           {| cin := "# no coefficients"; cout := []; files := []; processed := [] |}
           "Failed to read input." eq_refl).
Defined.


(** More of the command line: the two image files that exist, and the
    numbers of the options read as decimal integers. *)
Definition read_image (name : string) : result (Image float unit) :=
  if String.eqb name "ref.nii" then Ok reference
  else if String.eqb name "mask.nii" then Ok mask_img
  else Thrown "Could not read image".

Definition stoi (s : string) : result Z :=
  match extract_int s with
  | Some (z, _) => Ok z
  | None => Thrown "stoi"
  end.

Definition atoi (s : string) : Z :=
  match extract_int s with
  | Some (z, _) => z
  | None => 0
  end.

Definition run_qipolygen (opts : list (ascii * string)) (args : list string)
    (input : string) : result Z * World float :=
  qipolygen float 0%float (λ x, x) to_bool unit point poly value
    new_poly nterms setCoeffs print_poly extract 0%float
    read_image stoi atoi "QUIT"
    opts args {| cin := input; cout := []; files := []; processed := [] |}.

Definition mask_all : Image float unit :=
  {| LargestPossibleRegion := volume; geometry := tt; GetPixel := λ _, 1%float |}.

Definition mask_nothing : Image float unit :=
  {| LargestPossibleRegion := volume; geometry := tt; GetPixel := λ _, 0%float |}.

Lemma generate_unmasked_returns : ∃ st, generate None = Ok st.
Proof. vm_compute. eauto. Defined.

Lemma generate_all_returns : ∃ st, generate (Some mask_all) = Ok st.
Proof. vm_compute. eauto. Defined.

Lemma generate_nothing_returns : ∃ st, generate (Some mask_nothing) = Ok st.
Proof. vm_compute. eauto. Defined.

Lemma GenerateData_evaluations_witness :
  ∃ st, generate (Some mask_img) = Ok st
    ∧ evals float st = [(0, 0, 0); (0, 1, 0)]%Z.
Proof.
  destruct generate_masked_returns as [st Hgd]. exists st. split; [exact Hgd|].
  exact (proj1 (GenerateData_evaluations float 0%float (λ x, x) to_bool unit point
                  poly value reference p1 (Some mask_img) st Hgd)).
Defined.

Lemma GenerateData_full_mask_witness :
  ∃ st1 st2, generate None = Ok st1 ∧ generate (Some mask_all) = Ok st2
    ∧ output float st1 = output float st2
    ∧ sets float st1 = sets float st2
    ∧ evals float st1 = evals float st2.
Proof.
  destruct generate_unmasked_returns as [st1 H1].
  destruct generate_all_returns as [st2 H2].
  exists st1, st2. split; [exact H1|]. split; [exact H2|].
  exact (GenerateData_full_mask float 0%float (λ x, x) to_bool unit point
           poly value reference p1 mask_all st1 st2 (λ _ _, eq_refl) H1 H2).
Defined.

Lemma GenerateData_empty_mask_witness :
  ∃ st, generate (Some mask_nothing) = Ok st
    ∧ evals float st = []
    ∧ output float st !! (1, 1, 0)%Z = Some 0%float.
Proof.
  destruct generate_nothing_returns as [st Hgd]. exists st. split; [exact Hgd|].
  destruct (GenerateData_empty_mask float 0%float (λ x, x) to_bool unit point
              poly value reference p1 mask_nothing st (λ _ _, eq_refl) Hgd)
    as [Hevals Hzero].
  split; [exact Hevals|]. apply Hzero.
  apply elem_of_region_indices. reflexivity.
Defined.

Lemma qipolygen_wrong_arguments_witness :
  (run_qipolygen [("v"%char, ""); ("o"%char, "1")] ["ref.nii"] "1 0 0 0").1
  = Ok 1%Z
  ∧ cin float (run_qipolygen [("v"%char, ""); ("o"%char, "1")] ["ref.nii"] "1 0 0 0").2
    = "1 0 0 0".
Proof.
  destruct (qipolygen_wrong_arguments float 0%float (λ x, x) to_bool unit point
              poly value new_poly nterms setCoeffs print_poly extract 0%float
              read_image stoi atoi "QUIT"
              [("v"%char, ""); ("o"%char, "1")] ["ref.nii"]
              {| cin := "1 0 0 0"; cout := []; files := []; processed := [] |}
              _ _ eq_refl ltac:(cbn; lia))
    as (Hcode & _ & Hcin & _).
  split; [exact Hcode | exact Hcin].
Defined.

Lemma qipolygen_early_return_witness :
  (run_qipolygen [("v"%char, ""); ("h"%char, ""); ("m"%char, "missing.nii")] [] "").1
  = Ok 0%Z
  ∧ (run_qipolygen [("v"%char, ""); ("?"%char, ""); ("m"%char, "missing.nii")] [] "").1
    = Ok 1%Z.
Proof.
  destruct (qipolygen_early_return float 0%float (λ x, x) to_bool unit point
              poly value new_poly nterms setCoeffs print_poly extract 0%float
              read_image stoi atoi "QUIT"
              [("v"%char, "")] [("m"%char, "missing.nii")] "" []
              {| cin := ""; cout := []; files := []; processed := [] |}
              _ _ eq_refl)
    as [Hhelp Hbad].
  split.
  - unfold run_qipolygen. cbn [app] in Hhelp. by rewrite Hhelp.
  - unfold run_qipolygen. cbn [app] in Hbad. by rewrite Hbad.
Defined.

End Demo.
